(** * MVMemory vector engine: a shallow embedding of [vector_engine.py]

    The Python class [VectorEngine] keeps three pieces of mutable state
    (the FAISS id map, the [metadata] dict and the [next_id] counter),
    talks to two files under its cache directory and writes to a logger.
    Every method is embedded as a function from the world before the call
    to the result and the world after it.  Python exceptions are values
    of [res]; a [try ... except Exception] block is a [match] on them. *)

From Stdlib Require Import ZArith QArith String List Bool Lia Lqa.
From Stdlib Require Import Sorting.Sorted.
Import ListNotations.

Local Open Scope string_scope.
Local Open Scope list_scope.
Local Open Scope Z_scope.



(** ** Exceptions *)

(** The outcome of a Python call: a value, or a raised exception carrying
    the text that [str(e)] yields. *)
Inductive res (A : Type) : Type :=
| Ok (a : A)
| Raise (msg : string).

Arguments Ok {A} a.
Arguments Raise {A} msg.

(** ** Python dicts with integer keys

    [self.metadata] is a [Dict[int, Any]].  A Python dict iterates in
    insertion order, and [remove_embeddings] rebuilds the index in the
    order of [self.metadata.keys()], so the dict is an association list
    in insertion order rather than an unordered finite map. *)
Module Dict.
Section Defs.
Context {V : Type}.

Definition t : Type := list (Z * V).

Definition empty : t := [].

(** [d[k]], with [None] for [KeyError]. *)
Fixpoint get (d : t) (k : Z) : option V :=
  match d with
  | [] => None
  | (k', v) :: d' => if k' =? k then Some v else get d' k
  end.

(** [k in d] *)
Definition mem (d : t) (k : Z) : bool :=
  match get d k with Some _ => true | None => false end.

(** [d[k] = v]: an existing key keeps its place, a new one goes last. *)
Fixpoint set (d : t) (k : Z) (v : V) : t :=
  match d with
  | [] => [(k, v)]
  | (k', v') :: d' =>
      if k' =? k then (k, v) :: d' else (k', v') :: set d' k v
  end.

(** [del d[k]] *)
Definition del (d : t) (k : Z) : t :=
  filter (fun p => negb (fst p =? k)) d.

(** [list(d.keys())] *)
Definition keys (d : t) : list Z := map fst d.

(** [len(d)] *)
Definition len (d : t) : Z := Z.of_nat (length d).
End Defs.
Arguments t V : clear implicits.
End Dict.

(** ** The external collaborators *)

(** [self.model]: the sentence-transformer.  [encode] is the batch call
    [model.encode(texts, convert_to_numpy=True, normalize_embeddings=True)];
    it may raise, and when it returns it returns one row per text.
    [dimension] is [get_sentence_embedding_dimension()].  The type
    [embedding] stands for one row, a [float32[D]] vector. *)
Class Embedder (embedding : Type) : Type := {
  encode : list string -> res (list embedding);
  dimension : Z;
  encode_length : forall texts embs,
      encode texts = Ok embs -> length embs = length texts
}.

(** The squared Euclidean distance of [IndexFlatL2], with the floating
    point results read as exact rationals. *)
Class L2 (embedding : Type) : Type :=
  l2sqr : embedding -> embedding -> Q.

(** *** The index

    [self.id_map] is a [faiss.IndexIDMap] over a [faiss.IndexFlatL2]; the
    FAISS library is not part of the repository.  Its search follows the
    description the specification gives of it; [add_with_ids] and
    [reconstruct] follow what the library does when the engine calls
    them. *)
Section Index.
Context {embedding : Type} `{L2 embedding}.

(** Modelled from the spec: the index structure, "a flat, unordered
    collection of embeddings keyed by id, supporting append and
    exhaustive distance computation".  The rows are kept oldest first,
    each with the id it was added under. *)
Definition index : Type := list (Z * embedding).

Definition empty_index : index := [].

(** [id_map.ntotal] *)
Definition ntotal (i : index) : Z := Z.of_nat (length i).

(** [id_map.add_with_ids(x, ids)].  The FAISS wrapper unpacks
    [n, d = x.shape] and then asserts [ids.shape == (n,)].  A batch
    without rows reaches it as the array of shape [(0,)] that
    [model.encode([])] returns, and the unpacking raises on it; any
    other batch has one row per text and is appended when there are as
    many ids as rows. *)
Definition add_with_ids (i : index) (x : list embedding) (ids : list Z)
  : res index :=
  match x with
  | [] => Raise "not enough values to unpack (expected 2, got 1)"
  | _ :: _ =>
      if Nat.eqb (length x) (length ids)
      then Ok (i ++ combine ids x)
      else Raise "not same nb of vectors as ids"
  end.

(** [id_map.reconstruct(key)].  [self.id_map] is a plain
    [faiss.IndexIDMap], which keeps no map from ids back to rows and
    inherits [Index.reconstruct]: the call raises for every key, whether
    the index holds it or not. *)
Definition reconstruct (i : index) (key : Z) : res embedding :=
  Raise "reconstruct not implemented for this type of index".

(** One candidate of a search: the id and its distance to the query. *)
Definition candidate : Type := (Z * Q)%type.

(** Insertion into a list sorted by distance; [c] goes in front of the
    first entry that is not closer than it. *)
Fixpoint insert_candidate (c : candidate) (l : list candidate)
  : list candidate :=
  match l with
  | [] => [c]
  | c' :: l' =>
      if Qle_bool (snd c) (snd c')
      then c :: c' :: l'
      else c' :: insert_candidate c l'
  end.

(** Modelled from the spec: results "ordered by non-decreasing
    distance; ties broken by ascending insertion order"; a stable sort
    by distance, in which equal distances stay in storage order. *)
Fixpoint sort_candidates (l : list candidate) : list candidate :=
  match l with
  | [] => []
  | c :: l' => insert_candidate c (sort_candidates l')
  end.

Definition distances (i : index) (q : embedding) : list candidate :=
  map (fun p => (fst p, l2sqr q (snd p))) i.

(** Modelled from the spec: the exhaustive search of the index,
    [id_map.search(query_vector, k)] for one query row, as the pairs
    [zip(indices[0], distances[0])]: it "computes squared Euclidean
    distance from the query to every stored embedding" and "selects the
    k' smallest distances".  The FAISS wrapper asserts [k > 0].  The
    engine never asks for more than [ntotal] neighbours, so the [-1]
    padding of short answers does not arise. *)
Definition index_search (i : index) (q : embedding) (k : Z)
  : res (list candidate) :=
  if k <=? 0
  then Raise "k must be positive"
  else Ok (firstn (Z.to_nat k) (sort_candidates (distances i q))).
End Index.

(** ** The engine and its world *)

(** What a file of the cache directory holds. *)
Inductive artifact (A : Type) : Type :=
| Missing
| Corrupt
| Holds (a : A).

Arguments Missing {A}.
Arguments Corrupt {A}.
Arguments Holds {A} a.

Definition exists_file {A : Type} (f : artifact A) : bool :=
  match f with Missing => false | _ => true end.

Section Engine.
Context {embedding document json : Type}.
Context `{E : Embedder embedding} `{M : L2 embedding}.

(** The instance attributes that the methods read and write.
    [self.index] is only ever the base of [self.id_map] and is never
    read on its own; [self.dimension] is [dimension]. *)
Record engine : Type := mkEngine {
  id_map : @index embedding;
  metadata : Dict.t document;
  next_id : Z
}.

Definition empty_engine : engine :=
  {| id_map := empty_index; metadata := Dict.empty; next_id := 0 |}.

(** The object pickled into [metadata.pkl]; a key may be absent from a
    file written by another version. *)
Record pickled : Type := mkPickled {
  pk_metadata : option (Dict.t document);
  pk_next_id : option Z
}.

(** The two files of the cache directory; whether the next write of
    each succeeds; and, for a write that fails, whether the file had
    already been opened for writing, which empties it, or could not be
    opened at all, which leaves it as it was. *)
Record disk : Type := mkDisk {
  index_file : artifact (@index embedding);
  metadata_file : artifact pickled;
  index_writable : bool;
  metadata_writable : bool;
  index_truncated_on_failure : bool;
  metadata_truncated_on_failure : bool
}.

(** The same directory with other contents in its two files. *)
Definition with_files (fi : artifact (@index embedding))
  (fm : artifact pickled) (d : disk) : disk :=
  {| index_file := fi; metadata_file := fm;
     index_writable := index_writable d;
     metadata_writable := metadata_writable d;
     index_truncated_on_failure := index_truncated_on_failure d;
     metadata_truncated_on_failure := metadata_truncated_on_failure d |}.

(** A file after a write to it has failed. *)
Definition after_failed_write {A : Type} (truncated : bool)
  (f : artifact A) : artifact A :=
  if truncated then Corrupt else f.

(** The records sent to [logger], one constructor per call site. *)
Inductive log_entry : Type :=
| LoadedIndex (n : Z)
| FailedLoad
| SavedIndex (n : Z)
| FailedSave
| ErrorAdding (msg : string)
| ErrorSearching (msg : string)
| ErrorRemoving (msg : string)
| ErrorProcessing (msg : string).

(** The engine, the disk and the log, most recent record first. *)
Record world : Type := mkWorld {
  eng : engine;
  fs : disk;
  log : list log_entry
}.

Definition write_log (r : log_entry) (w : world) : world :=
  {| eng := eng w; fs := fs w; log := r :: log w |}.

Definition with_engine (e : engine) (w : world) : world :=
  {| eng := e; fs := fs w; log := log w |}.

(** *** [load_index] *)
Definition load_index (w : world) : world :=
  let e := eng w in
  let d := fs w in
  if exists_file (index_file d) && exists_file (metadata_file d) then
    match index_file d with
    | Holds i =>
        let e1 := {| id_map := i; metadata := metadata e;
                     next_id := next_id e |} in
        match metadata_file d with
        | Holds data =>
            match pk_metadata data with
            | Some m =>
                let e2 := {| id_map := i; metadata := m;
                             next_id := next_id e |} in
                match pk_next_id data with
                | Some n =>
                    write_log (LoadedIndex (ntotal i))
                      (with_engine {| id_map := i; metadata := m;
                                      next_id := n |} w)
                | None => write_log FailedLoad (with_engine e2 w)
                end
            | None => write_log FailedLoad (with_engine e1 w)
            end
        | _ => write_log FailedLoad (with_engine e1 w)
        end
    | _ => write_log FailedLoad w
    end
  else w.

(** *** [__init__]: the empty engine, then [load_index]. *)
Definition VectorEngine (d : disk) : world :=
  load_index {| eng := empty_engine; fs := d; log := [] |}.

(** *** [save_index] *)
Definition save_index (w : world) : world :=
  let e := eng w in
  let d := fs w in
  if index_writable d then
    if metadata_writable d then
      let d2 := with_files (Holds (id_map e))
                  (Holds {| pk_metadata := Some (metadata e);
                            pk_next_id := Some (next_id e) |}) d in
      write_log (SavedIndex (ntotal (id_map e)))
        {| eng := e; fs := d2; log := log w |}
    else
      let d1 := with_files (Holds (id_map e))
                  (after_failed_write (metadata_truncated_on_failure d)
                     (metadata_file d)) d in
      write_log FailedSave {| eng := e; fs := d1; log := log w |}
  else
    let d0 := with_files
                (after_failed_write (index_truncated_on_failure d)
                   (index_file d))
                (metadata_file d) d in
    write_log FailedSave {| eng := e; fs := d0; log := log w |}.

(** *** [add_embeddings] *)

(** The loop [for i, meta in enumerate(metadata)]: the ids handed out,
    the dict and the counter after it. *)
Fixpoint assign_ids (metas : list document) (m : Dict.t document)
  (n : Z) : list Z * Dict.t document * Z :=
  match metas with
  | [] => ([], m, n)
  | meta :: rest =>
      let '(ids, m', n') := assign_ids rest (Dict.set m n meta) (n + 1) in
      (n :: ids, m', n')
  end.

(** The values a handler returns. *)
Record hit : Type := mkHit {
  hit_metadata : document;
  distance : Q;
  relevance : Q
}.

Inductive result : Type :=
| VectorIds (ids : list Z)
| Error (msg : string)
| Hits (hits : list hit)
| Success
| Stats (total_vectors dim metadata_count : Z).

Definition add_embeddings (texts : list string) (metas : list document)
  (w : world) : result * world :=
  let e := eng w in
  match encode texts with
  | Raise msg => (Error msg, write_log (ErrorAdding msg) w)
  | Ok embeddings =>
      let '(ids, m', n') := assign_ids metas (metadata e) (next_id e) in
      match add_with_ids (id_map e) embeddings ids with
      | Raise msg =>
          (Error msg,
           write_log (ErrorAdding msg)
             (with_engine {| id_map := id_map e; metadata := m';
                             next_id := n' |} w))
      | Ok i' =>
          let w1 := with_engine {| id_map := i'; metadata := m';
                                   next_id := n' |} w in
          let w2 := if Dict.len m' mod 100 =? 0
                    then save_index w1 else w1 in
          (VectorIds ids, w2)
      end
  end.

(** *** [search] *)

(** The test [idx != -1 and idx in self.metadata] together with the
    lookup [self.metadata[idx]] that follows it. *)
Definition to_hit (m : Dict.t document) (c : candidate) : option hit :=
  if fst c =? -1 then None
  else match Dict.get m (fst c) with
       | Some md => Some {| hit_metadata := md;
                            distance := snd c;
                            relevance := (1 / (1 + snd c))%Q |}
       | None => None
       end.

(** The loop over [zip(indices[0], distances[0])]. *)
Fixpoint collect (m : Dict.t document) (cands : list candidate)
  : list hit :=
  match cands with
  | [] => []
  | c :: rest =>
      match to_hit m c with
      | Some h => h :: collect m rest
      | None => collect m rest
      end
  end.

Definition search (query : string) (k : Z) (w : world)
  : list hit * world :=
  let e := eng w in
  if ntotal (id_map e) =? 0 then ([], w)
  else
    match encode [query] with
    | Raise msg => ([], write_log (ErrorSearching msg) w)
    | Ok [] =>
        ([], write_log (ErrorSearching "not enough values to unpack") w)
    | Ok (query_vector :: _) =>
        let k' := Z.min k (ntotal (id_map e)) in
        match index_search (id_map e) query_vector k' with
        | Raise msg => ([], write_log (ErrorSearching msg) w)
        | Ok cands => (collect (metadata e) cands, w)
        end
    end.

(** *** [remove_embeddings] *)

(** [for vid in vector_ids: if vid in self.metadata: del ...] *)
Definition delete_all (vector_ids : list Z) (m : Dict.t document)
  : Dict.t document :=
  fold_left (fun m vid => if Dict.mem m vid then Dict.del m vid else m)
    vector_ids m.

(** [for vid in remaining_ids: vectors.append(reconstruct(vid))] *)
Fixpoint reconstruct_all (i : @index embedding) (ids : list Z)
  : res (list embedding) :=
  match ids with
  | [] => Ok []
  | vid :: rest =>
      match reconstruct i vid with
      | Raise msg => Raise msg
      | Ok v =>
          match reconstruct_all i rest with
          | Raise msg => Raise msg
          | Ok vs => Ok (v :: vs)
          end
      end
  end.

(** The [if remaining_ids: ... else: ...] block: the index that
    replaces [self.id_map], unless a reconstruction raises. *)
Definition rebuild (i : @index embedding) (remaining_ids : list Z)
  : res (@index embedding) :=
  match remaining_ids with
  | [] => Ok empty_index
  | _ :: _ =>
      match reconstruct_all i remaining_ids with
      | Raise msg => Raise msg
      | Ok vectors => add_with_ids empty_index vectors remaining_ids
      end
  end.

Definition remove_embeddings (vector_ids : list Z) (w : world)
  : result * world :=
  let e := eng w in
  let m' := delete_all vector_ids (metadata e) in
  let e1 := {| id_map := id_map e; metadata := m';
               next_id := next_id e |} in
  match rebuild (id_map e) (Dict.keys m') with
  | Raise msg => (Error msg, write_log (ErrorRemoving msg) (with_engine e1 w))
  | Ok i' =>
      (Success,
       save_index (with_engine {| id_map := i'; metadata := m';
                                  next_id := next_id e |} w))
  end.

(** *** [get_stats] *)
Definition get_stats (w : world) : result :=
  Stats (ntotal (id_map (eng w))) dimension (Dict.len (metadata (eng w))).

(** *** [process_request] *)

(** A parsed request: each field is [None] when the key is absent. *)
Record request : Type := mkRequest {
  req_requestId : option json;
  req_action : option string;
  req_texts : option (list string);
  req_metadata : option (list document);
  req_query : option string;
  req_k : option Z;
  req_vectorIds : option (list Z)
}.

(** The response dict.  [requestId] is always a key (its value is
    [None] for a request without one); [result] and [error] are [None]
    when the key is absent. *)
Record response : Type := mkResponse {
  requestId : option json;
  result_field : option result;
  error_field : option string
}.

(** [request.get(key, default)] *)
Definition get_or {A : Type} (field : option A) (default : A) : A :=
  match field with Some a => a | None => default end.

(** [f"{action}"] *)
Definition format_action (action : option string) : string :=
  match action with Some s => s | None => "None" end.

Definition action_is (action : option string) (name : string) : bool :=
  match action with Some s => String.eqb s name | None => false end.

(** The four methods that [process_request] reaches through [self]; a
    method may raise. *)
Record handlers : Type := mkHandlers {
  h_add : list string -> list document -> world -> res result * world;
  h_search : string -> Z -> world -> res result * world;
  h_remove : list Z -> world -> res result * world;
  h_stats : world -> res result * world
}.

(** The body of [process_request] over any four methods. *)
Definition process_request_with (h : handlers) (req : request) (w : world)
  : response * world :=
  let request_id := req_requestId req in
  let action := req_action req in
  let '(outcome, w') :=
    if action_is action "add" then
      h_add h (get_or (req_texts req) []) (get_or (req_metadata req) []) w
    else if action_is action "search" then
      h_search h (get_or (req_query req) "") (get_or (req_k req) 10) w
    else if action_is action "remove" then
      h_remove h (get_or (req_vectorIds req) []) w
    else if action_is action "stats" then
      h_stats h w
    else
      (Ok (Error (String.append "Unknown action: " (format_action action))),
       w) in
  match outcome with
  | Ok r =>
      ({| requestId := request_id; result_field := Some r;
          error_field := None |}, w')
  | Raise msg =>
      ({| requestId := request_id; result_field := None;
          error_field := Some msg |},
       write_log (ErrorProcessing msg) w')
  end.

(** The methods of the class itself. *)
Definition engine_handlers : handlers :=
  {| h_add := fun texts metas w =>
                let '(r, w') := add_embeddings texts metas w in (Ok r, w');
     h_search := fun query k w =>
                   let '(hits, w') := search query k w in
                   (Ok (Hits hits), w');
     h_remove := fun ids w =>
                   let '(r, w') := remove_embeddings ids w in (Ok r, w');
     h_stats := fun w => (Ok (get_stats w), w) |}.

Definition process_request : request -> world -> response * world :=
  process_request_with engine_handlers.

End Engine.

(** ** Operations as data *)

Section Operations.
Context {embedding document : Type}.
Context `{E : Embedder embedding} `{M : L2 embedding}.

(** One call on the store. *)
Inductive operation : Type :=
| Add (texts : list string) (metas : list document)
| Search (query : string) (k : Z)
| Remove (vector_ids : list Z)
| GetStats.

Definition run (o : operation) (w : @world embedding document)
  : @world embedding document :=
  match o with
  | Add texts metas => snd (add_embeddings texts metas w)
  | Search query k => snd (search query k w)
  | Remove vector_ids => snd (remove_embeddings vector_ids w)
  | GetStats => w
  end.

Definition run_all (ops : list operation) (w : @world embedding document)
  : @world embedding document :=
  fold_left (fun w o => run o w) ops w.

(** A call after which the two mappings still agree: an [Add] with as
    many texts as documents, a [Remove] whose deletions leave the
    metadata mapping empty or as it was, any search and any stats
    call. *)
Definition agreeable (o : operation) (w : @world embedding document)
  : Prop :=
  match o with
  | Add texts metas => length texts = length metas
  | Remove vector_ids =>
      Dict.keys (delete_all vector_ids (metadata (eng w))) = [] \/
      delete_all vector_ids (metadata (eng w)) = metadata (eng w)
  | _ => True
  end.

(** Every call of a sequence is agreeable on the world it is made in. *)
Fixpoint agreeable_run (ops : list operation)
  (w : @world embedding document) : Prop :=
  match ops with
  | [] => True
  | o :: rest => agreeable o w /\ agreeable_run rest (run o w)
  end.

(** The ids held in the index, in storage order. *)
Definition index_ids (e : @engine embedding document) : list Z :=
  map fst (id_map e).

(** The two mappings list the same ids in the same order, all of them
    already handed out. *)
Definition consistent (e : @engine embedding document) : Prop :=
  index_ids e = Dict.keys (metadata e) /\
  Forall (fun id => id < next_id e) (Dict.keys (metadata e)).

(** Ids ascend along the index and along the dict, below [next_id]. *)
Definition insertion_ordered (e : @engine embedding document) : Prop :=
  StronglySorted Z.lt (index_ids e) /\
  StronglySorted Z.lt (Dict.keys (metadata e)) /\
  Forall (fun id => id < next_id e) (index_ids e) /\
  Forall (fun id => id < next_id e) (Dict.keys (metadata e)).

(** [n; n+1; ...], [len] of them: the ids a run of the loop hands out. *)
Fixpoint consecutive (n : Z) (len : nat) : list Z :=
  match len with
  | O => []
  | S len' => n :: consecutive (n + 1) len'
  end.

(** How many times [save_index] has run, read off the log. *)
Fixpoint save_calls (l : list (@log_entry)) : nat :=
  match l with
  | [] => O
  | SavedIndex _ :: l' => S (save_calls l')
  | FailedSave :: l' => S (save_calls l')
  | _ :: l' => save_calls l'
  end.

(** Whether [load_index] gets through both files. *)
Definition loadable (d : @disk embedding document) : bool :=
  match index_file d, metadata_file d with
  | Holds _, Holds data =>
      match pk_metadata data, pk_next_id data with
      | Some _, Some _ => true
      | _, _ => false
      end
  | _, _ => false
  end.

(** The candidates that [search] keeps: its loop condition alone. *)
Definition kept (m : Dict.t document) (c : candidate) : bool :=
  negb (fst c =? -1) && Dict.mem m (fst c).

(** The candidates behind the hits of one [search] call. *)
Definition reported (query : string) (k : Z)
  (w : @world embedding document) : list candidate :=
  if ntotal (id_map (eng w)) =? 0 then []
  else
    match encode [query] with
    | Ok (query_vector :: _) =>
        match index_search (id_map (eng w)) query_vector
                (Z.min k (ntotal (id_map (eng w)))) with
        | Ok cands => cands
        | Raise _ => []
        end
    | _ => []
    end.

End Operations.

(** ** A small concrete engine

    One-dimensional embeddings: a text is embedded as its length, and
    documents are plain strings. *)
Module Tiny.
Definition embed (text : string) : Q := inject_Z (Z.of_nat (String.length text)).

#[global] Instance embedder : Embedder Q.
Proof.
  refine {| encode := fun texts => Ok (map embed texts); dimension := 1 |}.
  intros texts embs H. injection H as <-. apply length_map.
Defined.

#[global] Instance metric : L2 Q :=
  fun x y => ((x - y) * (x - y))%Q.

Definition blank : @disk Q string :=
  {| index_file := Missing; metadata_file := Missing;
     index_writable := true; metadata_writable := true;
     index_truncated_on_failure := false;
     metadata_truncated_on_failure := false |}.

Definition fresh : @world Q string := VectorEngine blank.

(** [add(["A"], [m0])] succeeds; [add(["B","CC"], [m1])] is the
    unbalanced call; [remove([0])] then fails to rebuild. *)
Definition after_add : @world Q string :=
  snd (add_embeddings ["A"] ["m0"] fresh).

Definition after_bad_add : @world Q string :=
  snd (add_embeddings ["B"; "CC"] ["m1"] after_add).

Definition after_failed_remove : @world Q string :=
  snd (remove_embeddings [0] after_bad_add).

(** The engine with [add_embeddings] patched to raise. *)
Definition patched : @handlers Q string :=
  {| h_add := fun _ _ w => (Raise "Test error", w);
     h_search := h_search engine_handlers;
     h_remove := h_remove engine_handlers;
     h_stats := h_stats engine_handlers |}.

Definition bogus_request : @request string string :=
  {| req_requestId := Some "test_req_5";
     req_action := Some "unknown_action";
     req_texts := None; req_metadata := None; req_query := None;
     req_k := None; req_vectorIds := None |}.

Definition add_request : @request string string :=
  {| req_requestId := Some "test_req_7";
     req_action := Some "add";
     req_texts := Some ["test"]; req_metadata := Some ["m"];
     req_query := None; req_k := None; req_vectorIds := None |}.

Definition remove_request : @request string string :=
  {| req_requestId := Some "test_req_8";
     req_action := Some "remove";
     req_texts := None; req_metadata := None;
     req_query := None; req_k := None; req_vectorIds := Some [0] |}.
End Tiny.

(** ** The process: [main] *)

Section Process.
Context {embedding document json : Type}.
Context `{E : Embedder embedding} `{M : L2 embedding}.

(** What [json.loads(line.strip())] makes of one line of [sys.stdin]:
    it raises [JSONDecodeError], or returns a value that is not an
    object (on which [request.get], the first statement of
    [process_request], raises outside its [try]), or returns an object. *)
Inductive parsed_line : Type :=
| InvalidJson (msg : string)
| NotAnObject (msg : string)
| Request (req : @request document json).

(** The two [logger.error] calls of [main]. *)
Inductive main_error : Type :=
| InvalidJSON (msg : string)
| UnexpectedError (msg : string).

(** A line printed on [sys.stdout]. *)
Inductive output : Type :=
| Ready (dim : Z)
| Response (r : @response document json).

(** The loop [for line in sys.stdin]: the responses printed and the
    errors logged by [main], oldest first, and the world at the end. *)
Fixpoint main_loop (lines : list parsed_line) (w : @world embedding document)
  : list (@response document json) * list main_error
    * @world embedding document :=
  match lines with
  | [] => ([], [], w)
  | InvalidJson msg :: rest =>
      let '(out, errs, w') := main_loop rest w in
      (out, InvalidJSON msg :: errs, w')
  | NotAnObject msg :: rest =>
      let '(out, errs, w') := main_loop rest w in
      (out, UnexpectedError msg :: errs, w')
  | Request req :: rest =>
      let '(r, w1) := process_request req w in
      let '(out, errs, w') := main_loop rest w1 in
      (r :: out, errs, w')
  end.

(** [main]: the constructor prints the ready line, then the loop runs. *)
Definition main (d : @disk embedding document) (lines : list parsed_line)
  : list output * list main_error * @world embedding document :=
  let '(out, errs, w) := main_loop lines (VectorEngine d) in
  (Ready dimension :: map Response out, errs, w).

(** The lines that are requests, in order. *)
Fixpoint requests (lines : list parsed_line)
  : list (@request document json) :=
  match lines with
  | [] => []
  | Request req :: rest => req :: requests rest
  | _ :: rest => requests rest
  end.

(** The call on the store that a request amounts to; a request that
    reaches no method, or only [get_stats], changes nothing. *)
Definition operation_of (req : @request document json)
  : @operation document :=
  if action_is (req_action req) "add" then
    Add (get_or (req_texts req) []) (get_or (req_metadata req) [])
  else if action_is (req_action req) "search" then
    Search (get_or (req_query req) "") (get_or (req_k req) 10)
  else if action_is (req_action req) "remove" then
    Remove (get_or (req_vectorIds req) [])
  else GetStats.
End Process.

(** ** An encoder that is down

    Every call of [encode] raises, as when the model cannot run. *)
Module Broken.
Definition embedder : Embedder Q.
Proof.
  refine {| encode := fun _ => Raise "Encoding failed"; dimension := 1 |}.
  intros texts embs H. discriminate H.
Defined.

Definition search_request : @request string string :=
  {| req_requestId := Some "r2";
     req_action := Some "search";
     req_texts := None; req_metadata := None; req_query := Some "A";
     req_k := Some 5; req_vectorIds := None |}.
End Broken.

(** * Properties *)

(** ** Dicts *)

Section DictFacts.
Context {V : Type}.
Implicit Types (d : Dict.t V) (k : Z) (v : V).

Lemma get_set_same d k v : Dict.get (Dict.set d k v) k = Some v.
Proof.
  induction d as [|[k' v'] d IH]; simpl.
  - now rewrite Z.eqb_refl.
  - destruct (k' =? k) eqn:Hk; simpl.
    + now rewrite Z.eqb_refl.
    + now rewrite Hk.
Qed.

Lemma get_set_other d k k' v :
  k <> k' -> Dict.get (Dict.set d k v) k' = Dict.get d k'.
Proof.
  intros Hne. induction d as [|[k0 v0] d IH]; simpl.
  - destruct (k =? k') eqn:Hk; [apply Z.eqb_eq in Hk; contradiction | reflexivity].
  - destruct (k0 =? k) eqn:Hk0; simpl.
    + apply Z.eqb_eq in Hk0. subst k0.
      destruct (k =? k') eqn:Hk; [apply Z.eqb_eq in Hk; contradiction | reflexivity].
    + now rewrite IH.
Qed.

Lemma get_keys d k : Dict.get d k <> None <-> In k (Dict.keys d).
Proof.
  induction d as [|[k' v'] d IH]; simpl.
  - split; [congruence | tauto].
  - destruct (k' =? k) eqn:Hk.
    + apply Z.eqb_eq in Hk. split; [auto | congruence].
    + apply Z.eqb_neq in Hk. rewrite IH. split; [auto | intros [?|?]; [contradiction | assumption]].
Qed.

Lemma mem_keys d k : Dict.mem d k = true <-> In k (Dict.keys d).
Proof.
  rewrite <- get_keys. unfold Dict.mem.
  destruct (Dict.get d k); split; congruence.
Qed.

Lemma mem_false_keys d k : Dict.mem d k = false <-> ~ In k (Dict.keys d).
Proof.
  rewrite <- mem_keys. destruct (Dict.mem d k); split; congruence.
Qed.

Lemma keys_set_fresh d k v :
  ~ In k (Dict.keys d) -> Dict.keys (Dict.set d k v) = Dict.keys d ++ [k].
Proof.
  induction d as [|[k' v'] d IH]; simpl; intros Hnot.
  - reflexivity.
  - destruct (k' =? k) eqn:Hk.
    + apply Z.eqb_eq in Hk. exfalso. auto.
    + simpl. f_equal. apply IH. auto.
Qed.

Lemma keys_del d k :
  Dict.keys (Dict.del d k) = filter (fun k' => negb (k' =? k)) (Dict.keys d).
Proof.
  unfold Dict.del, Dict.keys.
  induction d as [|[k' v'] d IH]; simpl; [reflexivity|].
  destruct (k' =? k); simpl; now rewrite IH.
Qed.

Lemma del_absent d k : ~ In k (Dict.keys d) -> Dict.del d k = d.
Proof.
  unfold Dict.del, Dict.keys.
  induction d as [|[k' v'] d IH]; simpl; intros Hnot; [reflexivity|].
  destruct (k' =? k) eqn:Hk.
  - apply Z.eqb_eq in Hk. exfalso. auto.
  - simpl. f_equal. apply IH. auto.
Qed.

Lemma len_keys d : Dict.len d = Z.of_nat (length (Dict.keys d)).
Proof. unfold Dict.len, Dict.keys. now rewrite length_map. Qed.
End DictFacts.

(** ** [add_embeddings] *)

Section AddFacts.
Context {embedding document : Type}.
Context `{E : Embedder embedding} `{M : L2 embedding}.
Implicit Types (m : Dict.t document) (w : @world embedding document).

Lemma consecutive_length n len : length (consecutive n len) = len.
Proof. revert n. induction len; simpl; intros; [reflexivity | now rewrite IHlen]. Qed.

Lemma consecutive_bounds n len :
  Forall (fun id => n <= id < n + Z.of_nat len) (consecutive n len).
Proof.
  revert n. induction len as [|len IH]; intros n; simpl; constructor.
  - lia.
  - eapply Forall_impl; [|apply IH]. simpl. intros a Ha. lia.
Qed.

Lemma consecutive_sorted n len : StronglySorted Z.lt (consecutive n len).
Proof.
  revert n. induction len as [|len IH]; intros n; simpl; constructor.
  - apply IH.
  - eapply Forall_impl; [|apply consecutive_bounds]. simpl. intros a Ha. lia.
Qed.

(** The loop hands out [next_id, next_id + 1, ...] and leaves the
    counter just past the last of them. *)
Lemma assign_ids_shape metas :
  forall m n ids m' n',
    assign_ids metas m n = (ids, m', n') ->
    ids = consecutive n (length metas) /\ n' = n + Z.of_nat (length metas).
Proof.
  induction metas as [|meta rest IH]; simpl; intros m n ids m' n' Heq.
  - inversion Heq. split; [reflexivity | lia].
  - destruct (assign_ids rest (Dict.set m n meta) (n + 1)) as [[ids1 m1] n1] eqn:Hrest.
    inversion Heq; subst. apply IH in Hrest. destruct Hrest as [-> ->].
    split; [reflexivity | lia].
Qed.

(** Keys below the counter are not touched by the loop. *)
Lemma assign_ids_get_below metas :
  forall m n ids m' n' key,
    assign_ids metas m n = (ids, m', n') ->
    key < n -> Dict.get m' key = Dict.get m key.
Proof.
  induction metas as [|meta rest IH]; simpl; intros m n ids m' n' key Heq Hlt.
  - now inversion Heq.
  - destruct (assign_ids rest (Dict.set m n meta) (n + 1)) as [[ids1 m1] n1] eqn:Hrest.
    inversion Heq; subst.
    rewrite (IH _ _ _ _ _ key Hrest) by lia.
    apply get_set_other. lia.
Qed.

(** The [j]-th document ends up under the [j]-th id. *)
Lemma assign_ids_get metas :
  forall m n ids m' n' j meta,
    assign_ids metas m n = (ids, m', n') ->
    nth_error metas j = Some meta ->
    Dict.get m' (n + Z.of_nat j) = Some meta.
Proof.
  induction metas as [|meta0 rest IH]; simpl; intros m n ids m' n' j meta Heq Hnth.
  - destruct j; discriminate.
  - destruct (assign_ids rest (Dict.set m n meta0) (n + 1)) as [[ids1 m1] n1] eqn:Hrest.
    inversion Heq; subst.
    destruct j as [|j]; simpl in Hnth.
    + inversion Hnth; subst.
      replace (n + Z.of_nat 0) with n by lia.
      rewrite (assign_ids_get_below _ _ _ _ _ _ n Hrest) by lia.
      apply get_set_same.
    + replace (n + Z.of_nat (S j)) with ((n + 1) + Z.of_nat j) by lia.
      eapply IH; eauto.
Qed.

(** With every old key below the counter, the loop appends its ids to
    the key list. *)
Lemma assign_ids_keys metas :
  forall m n ids m' n',
    assign_ids metas m n = (ids, m', n') ->
    Forall (fun id => id < n) (Dict.keys m) ->
    Dict.keys m' = Dict.keys m ++ ids.
Proof.
  induction metas as [|meta rest IH]; simpl; intros m n ids m' n' Heq Hbelow.
  - inversion Heq. now rewrite app_nil_r.
  - destruct (assign_ids rest (Dict.set m n meta) (n + 1)) as [[ids1 m1] n1] eqn:Hrest.
    inversion Heq; subst.
    assert (Hfresh : ~ In n (Dict.keys m)).
    { intros Hin. rewrite Forall_forall in Hbelow. apply Hbelow in Hin. lia. }
    apply IH in Hrest.
    + rewrite Hrest, (keys_set_fresh _ _ meta Hfresh), <- app_assoc. reflexivity.
    + rewrite (keys_set_fresh _ _ meta Hfresh). apply Forall_app. split.
      * eapply Forall_impl; [|exact Hbelow]. simpl. intros a Ha. lia.
      * constructor; [lia | constructor].
Qed.

Lemma add_with_ids_unequal (i : @index embedding) x ids :
  length x <> length ids ->
  exists msg, add_with_ids i x ids = Raise msg.
Proof.
  intros Hne. unfold add_with_ids. destruct x as [|v x]; [eauto|].
  destruct (Nat.eqb (length (v :: x)) (length ids)) eqn:Hl; [|eauto].
  apply Nat.eqb_eq in Hl. contradiction.
Qed.

Lemma add_with_ids_equal (i : @index embedding) x ids :
  x <> [] ->
  length x = length ids ->
  add_with_ids i x ids = Ok (i ++ combine ids x).
Proof.
  intros Hx Hl. unfold add_with_ids. destruct x as [|v x]; [contradiction|].
  now rewrite Hl, Nat.eqb_refl.
Qed.

(** Rows are appended only when there is at least one, with as many ids
    as rows. *)
Lemma add_with_ids_ok (i i' : @index embedding) x ids :
  add_with_ids i x ids = Ok i' ->
  x <> [] /\ length x = length ids /\ i' = i ++ combine ids x.
Proof.
  unfold add_with_ids. destruct x as [|v x]; [discriminate|].
  destruct (Nat.eqb (length (v :: x)) (length ids)) eqn:Hl; [|discriminate].
  apply Nat.eqb_eq in Hl. intros Heq. injection Heq as <-.
  repeat split; [discriminate | exact Hl].
Qed.

Lemma add_with_ids_empty (i : @index embedding) ids :
  exists msg, add_with_ids i [] ids = Raise msg.
Proof. unfold add_with_ids. eauto. Qed.

Lemma save_index_eng w : eng (save_index w) = eng w.
Proof.
  unfold save_index.
  destruct (index_writable (fs w)); [destruct (metadata_writable (fs w))|];
    reflexivity.
Qed.

Lemma save_index_calls w :
  save_calls (log (save_index w)) = S (save_calls (log w)).
Proof.
  unfold save_index.
  destruct (index_writable (fs w)); [destruct (metadata_writable (fs w))|];
    reflexivity.
Qed.

(** C1 (amended).  An [add] whose texts and metadata differ in length
    reports an error, returns no ids, leaves the index and the disk as
    they were and saves nothing.  When encoding the texts fails the
    engine is untouched; otherwise the loop has already run, so every
    supplied document sits in the metadata mapping under a fresh id and
    [next_id] has advanced by the number of documents. *)
Theorem add_unequal_lengths :
  forall texts metas w,
    length texts <> length metas ->
    let r := fst (add_embeddings texts metas w) in
    let w' := snd (add_embeddings texts metas w) in
    (exists msg, r = Error msg) /\
    id_map (eng w') = id_map (eng w) /\
    fs w' = fs w /\
    save_calls (log w') = save_calls (log w) /\
    match encode texts with
    | Raise _ => eng w' = eng w
    | Ok _ =>
        next_id (eng w') = next_id (eng w) + Z.of_nat (length metas) /\
        forall j meta,
          nth_error metas j = Some meta ->
          Dict.get (metadata (eng w')) (next_id (eng w) + Z.of_nat j)
          = Some meta
    end.
Proof.
  intros texts metas w Hne. unfold add_embeddings.
  destruct (encode texts) as [embs|msg] eqn:Henc.
  - destruct (assign_ids metas (metadata (eng w)) (next_id (eng w)))
      as [[ids m'] n'] eqn:Hloop.
    destruct (assign_ids_shape _ _ _ _ _ _ Hloop) as [Hids Hn'].
    assert (Hlen : length embs <> length ids).
    { rewrite (encode_length _ _ Henc), Hids, consecutive_length. exact Hne. }
    destruct (add_with_ids_unequal (id_map (eng w)) _ _ Hlen) as [msg Hraise].
    rewrite Hraise. simpl.
    repeat split; eauto.
    intros j meta Hnth. eapply assign_ids_get; eauto.
  - simpl. repeat split; eauto.
Qed.
End AddFacts.

(** C1, as stated, fails on the call of Scenario C: three texts with two
    documents move [next_id] from 0 to 2 and leave two entries in the
    metadata mapping. *)
Lemma add_unequal_lengths_counterexample :
  let w' := snd (add_embeddings ["A"; "B"; "C"] ["m1"; "m2"] Tiny.fresh) in
  length ["A"; "B"; "C"] <> length ["m1"; "m2"] /\
  fst (add_embeddings ["A"; "B"; "C"] ["m1"; "m2"] Tiny.fresh)
  = Error "not same nb of vectors as ids" /\
  next_id (eng Tiny.fresh) = 0 /\ next_id (eng w') = 2 /\
  metadata (eng Tiny.fresh) = [] /\
  metadata (eng w') = [(0, "m1"); (1, "m2")].
Proof. simpl. repeat split; try reflexivity. discriminate. Qed.

Lemma add_unequal_lengths_witness :
  length ["A"; "B"; "C"] <> length ["m1"; "m2"] /\
  next_id (eng (snd (add_embeddings ["A"; "B"; "C"] ["m1"; "m2"] Tiny.fresh)))
  = next_id (eng Tiny.fresh) + 2.
Proof.
  assert (Hne : length ["A"; "B"; "C"] <> length ["m1"; "m2"])
    by (simpl; discriminate).
  split; [exact Hne|].
  exact (proj1 (proj2 (proj2 (proj2 (proj2
    (add_unequal_lengths ["A"; "B"; "C"] ["m1"; "m2"] Tiny.fresh Hne)))))).
Defined.

(** ** Lists *)

Section ListFacts.
Context {A B : Type}.

Lemma map_fst_combine (l : list A) (l' : list B) :
  length l = length l' -> map fst (combine l l') = l.
Proof.
  revert l'. induction l as [|a l IH]; intros [|b l'] Hlen; simpl in *;
    try reflexivity; try discriminate.
  f_equal. apply IH. lia.
Qed.

Lemma Forall_filter (P : A -> Prop) (f : A -> bool) (l : list A) :
  Forall P l -> Forall P (filter f l).
Proof.
  intros H. rewrite Forall_forall in *. intros a Ha.
  apply filter_In in Ha. apply H, Ha.
Qed.

Lemma StronglySorted_filter (R : A -> A -> Prop) (f : A -> bool) (l : list A) :
  StronglySorted R l -> StronglySorted R (filter f l).
Proof.
  induction 1 as [|a l Hs IH Hall]; simpl; [constructor|].
  destruct (f a); [|exact IH].
  constructor; [exact IH | now apply Forall_filter].
Qed.

Lemma Forall_firstn (P : A -> Prop) (n : nat) (l : list A) :
  Forall P l -> Forall P (firstn n l).
Proof.
  intros H. revert n. induction H; intros [|n]; simpl; constructor; auto.
Qed.

Lemma firstn_In (n : nat) (l : list A) (x : A) :
  In x (firstn n l) -> In x l.
Proof.
  revert n. induction l as [|a l IH]; intros [|n]; simpl; try tauto.
  intros [H|H]; [auto | right; eapply IH; eauto].
Qed.

Lemma StronglySorted_firstn (R : A -> A -> Prop) (n : nat) (l : list A) :
  StronglySorted R l -> StronglySorted R (firstn n l).
Proof.
  intros H. revert n. induction H as [|a l Hs IH Hall]; intros [|n]; simpl;
    constructor; auto using Forall_firstn.
Qed.

Lemma StronglySorted_app (R : A -> A -> Prop) (l1 l2 : list A) :
  StronglySorted R l1 -> StronglySorted R l2 ->
  (forall a b, In a l1 -> In b l2 -> R a b) ->
  StronglySorted R (l1 ++ l2).
Proof.
  induction 1 as [|a l Hs IH Hall]; simpl; intros H2 Hcross; [exact H2|].
  constructor.
  - apply IH; [exact H2 | intros; apply Hcross; simpl; auto].
  - apply Forall_app. split; [exact Hall|].
    rewrite Forall_forall. intros b Hb. apply Hcross; simpl; auto.
Qed.
End ListFacts.

(** ** [remove_embeddings] and the invariants *)

Section StoreFacts.
Context {embedding document : Type}.
Context `{E : Embedder embedding} `{M : L2 embedding}.
Implicit Types (m : Dict.t document) (w : @world embedding document)
  (i : @index embedding).

Lemma delete_step m vid :
  (if Dict.mem m vid then Dict.del m vid else m) = Dict.del m vid.
Proof.
  destruct (Dict.mem m vid) eqn:Hmem; [reflexivity|].
  symmetry. apply del_absent. now apply mem_false_keys.
Qed.

(** Whatever filtering keeps true of a key list, the deletion loop keeps
    true of the keys of the dict. *)
Lemma delete_all_keys (P : list Z -> Prop) :
  (forall f l, P l -> P (filter f l)) ->
  forall vector_ids m,
    P (Dict.keys m) -> P (Dict.keys (delete_all vector_ids m)).
Proof.
  intros Hfilter vector_ids.
  induction vector_ids as [|vid rest IH]; simpl; intros m HP; [exact HP|].
  apply IH. rewrite delete_step, keys_del. now apply Hfilter.
Qed.

Lemma delete_all_incl vector_ids m :
  incl (Dict.keys (delete_all vector_ids m)) (Dict.keys m).
Proof.
  apply (delete_all_keys (fun l => incl l (Dict.keys m))).
  - intros f l Hl a Ha. apply Hl. apply filter_In in Ha. apply Ha.
  - apply incl_refl.
Qed.

(** A named id is gone from the dict once the loop has run. *)
Lemma delete_all_removes vector_ids :
  forall m vid,
    In vid vector_ids -> ~ In vid (Dict.keys (delete_all vector_ids m)).
Proof.
  induction vector_ids as [|v rest IH]; simpl; intros m vid Hin; [contradiction|].
  rewrite delete_step. destruct Hin as [->|Hin]; [|now apply IH].
  intros Hkey. apply delete_all_incl in Hkey.
  rewrite keys_del in Hkey. apply filter_In in Hkey.
  destruct Hkey as [_ Hkey]. now rewrite Z.eqb_refl in Hkey.
Qed.



Lemma reconstruct_raises i key :
  reconstruct i key
  = Raise "reconstruct not implemented for this type of index".
Proof. reflexivity. Qed.

(** The loop of reconstructions stops at its first key. *)
Lemma reconstruct_all_raises i ids :
  ids <> [] ->
  reconstruct_all i ids
  = Raise "reconstruct not implemented for this type of index".
Proof. destruct ids as [|vid rest]; [contradiction | reflexivity]. Qed.

(** With no id left there is nothing to reconstruct: the index is
    replaced by an empty one. *)
Lemma rebuild_empty i : rebuild i [] = Ok empty_index.
Proof. reflexivity. Qed.

(** With an id left the rebuild fails at the first reconstruction. *)
Lemma rebuild_survivor i ids :
  ids <> [] ->
  rebuild i ids
  = Raise "reconstruct not implemented for this type of index".
Proof. destruct ids as [|vid rest]; [contradiction | reflexivity]. Qed.

Lemma rebuild_ok i ids i' :
  rebuild i ids = Ok i' -> ids = [] /\ i' = empty_index.
Proof.
  destruct ids as [|vid rest]; simpl; intros Heq; [|discriminate].
  injection Heq as <-. auto.
Qed.

(** Whenever the rebuild succeeds the new index holds the ids asked for. *)
Lemma rebuild_ids i ids i' :
  rebuild i ids = Ok i' -> map fst i' = ids.
Proof.
  intros Heq. apply rebuild_ok in Heq. destruct Heq as [-> ->]. reflexivity.
Qed.
End StoreFacts.

Section Invariants.
Context {embedding document : Type}.
Context `{E : Embedder embedding} `{M : L2 embedding}.
Implicit Types (m : Dict.t document) (w : @world embedding document)
  (e : @engine embedding document).

(** [search] writes to the log and to nothing else. *)
Lemma search_eng query k w : eng (snd (search query k w)) = eng w.
Proof.
  unfold search.
  destruct (ntotal (id_map (eng w)) =? 0); [reflexivity|].
  destruct (encode [query]) as [[|qv qs]|msg]; try reflexivity.
  destruct (index_search _ _ _); reflexivity.
Qed.

Lemma search_fs query k w : fs (snd (search query k w)) = fs w.
Proof.
  unfold search.
  destruct (ntotal (id_map (eng w)) =? 0); [reflexivity|].
  destruct (encode [query]) as [[|qv qs]|msg]; try reflexivity.
  destruct (index_search _ _ _); reflexivity.
Qed.

Lemma consistent_empty : consistent (@empty_engine embedding document).
Proof. split; [reflexivity | constructor]. Qed.

Lemma consistent_counts e :
  consistent e -> ntotal (id_map e) = Dict.len (metadata e).
Proof.
  intros [Hids _]. unfold ntotal, Dict.len. f_equal.
  apply (f_equal (@length Z)) in Hids.
  unfold index_ids, Dict.keys in Hids. now rewrite !length_map in Hids.
Qed.

Lemma add_consistent texts metas w :
  length texts = length metas ->
  consistent (eng w) ->
  consistent (eng (snd (add_embeddings texts metas w))).
Proof.
  intros Hlen [Hids Hbelow]. unfold add_embeddings.
  destruct (encode texts) as [embs|msg] eqn:Henc; [|split; assumption].
  destruct (assign_ids metas (metadata (eng w)) (next_id (eng w)))
    as [[ids m'] n'] eqn:Hloop.
  destruct (assign_ids_shape _ _ _ _ _ _ Hloop) as [Hshape Hn'].
  pose proof (assign_ids_keys _ _ _ _ _ _ Hloop Hbelow) as Hkeys.
  assert (Hrows : length embs = length ids).
  { rewrite (encode_length _ _ Henc), Hshape, consecutive_length. exact Hlen. }
  destruct embs as [|v embs].
  - destruct (add_with_ids_empty (id_map (eng w)) ids) as [msg Hraise].
    rewrite Hraise. simpl.
    destruct ids; [|discriminate].
    rewrite app_nil_r in Hkeys.
    assert (Hmetas : length metas = 0%nat)
      by (rewrite <- (consecutive_length (next_id (eng w)) (length metas)),
            <- Hshape; reflexivity).
    split; unfold index_ids; simpl.
    + now rewrite Hkeys.
    + rewrite Hkeys, Hn', Hmetas. simpl.
      eapply Forall_impl; [|exact Hbelow]. simpl. intros a Ha. lia.
  - rewrite add_with_ids_equal by (assumption || discriminate).
    assert (Hnew : consistent
                     {| id_map := id_map (eng w) ++ combine ids (v :: embs);
                        metadata := m'; next_id := n' |}).
    { split; unfold index_ids; simpl id_map; simpl metadata; simpl next_id.
      - rewrite map_app, map_fst_combine by (now rewrite Hrows).
        unfold index_ids in Hids. now rewrite Hids, Hkeys.
      - rewrite Hkeys. apply Forall_app. split.
        + eapply Forall_impl; [|exact Hbelow]. simpl. intros a Ha. lia.
        + rewrite Hshape, Hn'.
          eapply Forall_impl; [|apply consecutive_bounds]. simpl.
          intros a Ha. lia. }
    simpl. destruct (Dict.len m' mod 100 =? 0); [rewrite save_index_eng|];
      exact Hnew.
Qed.

(** A removal whose deletions empty the metadata mapping, or delete
    nothing, leaves the two mappings in agreement. *)
Lemma remove_consistent vector_ids w :
  agreeable (Remove vector_ids) w ->
  consistent (eng w) ->
  consistent (eng (snd (remove_embeddings vector_ids w))).
Proof.
  intros Hag [Hids Hbelow]. unfold remove_embeddings.
  destruct (Dict.keys (delete_all vector_ids (metadata (eng w))))
    as [|key keys] eqn:Hkeys.
  - rewrite rebuild_empty. simpl. rewrite save_index_eng.
    split; unfold index_ids; simpl; rewrite Hkeys; [reflexivity | constructor].
  - rewrite rebuild_survivor by discriminate. simpl.
    destruct Hag as [Hempty|Hsame]; [simpl in Hempty; congruence|].
    simpl in Hsame. split; unfold index_ids; simpl; rewrite Hsame; assumption.
Qed.

Lemma run_consistent o w :
  agreeable o w -> consistent (eng w) -> consistent (eng (run o w)).
Proof.
  destruct o as [texts metas|query k|vector_ids|]; simpl run; intros Hb Hc.
  - now apply add_consistent.
  - now rewrite search_eng.
  - now apply remove_consistent.
  - exact Hc.
Qed.

Lemma run_all_consistent ops :
  forall w,
    agreeable_run ops w -> consistent (eng w) ->
    consistent (eng (run_all ops w)).
Proof.
  induction ops as [|o ops IH]; intros w Hb Hc; [exact Hc|].
  destruct Hb as [Ho Hrest].
  change (run_all (o :: ops) w) with (run_all ops (run o w)).
  apply IH; [exact Hrest | now apply run_consistent].
Qed.


(** C3 (amended).  When a surviving id cannot be reconstructed,
    [remove_embeddings] reports an error and leaves the index, the
    counter and the disk exactly as they were, and saves nothing; the
    metadata mapping is not restored: the deletion loop ran first, so
    the ids named in the call are gone from it. *)
Theorem remove_failure_keeps_index :
  forall vector_ids w vid msg,
    In vid (Dict.keys (delete_all vector_ids (metadata (eng w)))) ->
    reconstruct (id_map (eng w)) vid = Raise msg ->
    let r := fst (remove_embeddings vector_ids w) in
    let w' := snd (remove_embeddings vector_ids w) in
    (exists msg, r = Error msg) /\
    id_map (eng w') = id_map (eng w) /\
    next_id (eng w') = next_id (eng w) /\
    fs w' = fs w /\
    save_calls (log w') = save_calls (log w) /\
    metadata (eng w') = delete_all vector_ids (metadata (eng w)) /\
    forall id, In id vector_ids -> Dict.mem (metadata (eng w')) id = false.
Proof.
  intros vector_ids w vid msg Hin Hfail.
  assert (Hleft : Dict.keys (delete_all vector_ids (metadata (eng w))) <> [])
    by (intros Hnone; rewrite Hnone in Hin; contradiction).
  unfold remove_embeddings.
  rewrite (rebuild_survivor _ _ Hleft). simpl.
  repeat split; eauto.
  intros id Hid. apply mem_false_keys. now apply delete_all_removes.
Qed.
End Invariants.



(** C3, as stated, fails once an unbalanced add has left ids 0 and 1 in
    the metadata mapping alone: [remove([0])] cannot reconstruct id 1,
    reports the error, and id 0 is gone from the mapping all the same. *)
Lemma remove_failure_counterexample :
  let w := snd (add_embeddings ["A"] ["m0"; "m1"] Tiny.fresh) in
  let w' := snd (remove_embeddings [0] w) in
  reconstruct (id_map (eng w)) 1
  = Raise "reconstruct not implemented for this type of index" /\
  fst (remove_embeddings [0] w)
  = Error "reconstruct not implemented for this type of index" /\
  metadata (eng w) = [(0, "m0"); (1, "m1")] /\
  metadata (eng w') = [(1, "m1")] /\
  metadata (eng w') <> metadata (eng w).
Proof. simpl. repeat split. discriminate. Qed.

Lemma remove_failure_witness :
  let w := snd (add_embeddings ["A"] ["m0"; "m1"] Tiny.fresh) in
  id_map (eng (snd (remove_embeddings [0] w))) = id_map (eng w) /\
  Dict.mem (metadata (eng (snd (remove_embeddings [0] w)))) 0 = false.
Proof.
  intros w.
  assert (Hin : In 1 (Dict.keys (delete_all [0] (metadata (eng w)))))
    by (simpl; auto).
  assert (Hfail : reconstruct (id_map (eng w)) 1
                  = Raise "reconstruct not implemented for this type of index")
    by reflexivity.
  destruct (remove_failure_keeps_index [0] w 1 _ Hin Hfail)
    as [_ [Hidx [_ [_ [_ [_ Hgone]]]]]].
  split; [exact Hidx | apply Hgone; simpl; auto].
Defined.

(** ** Persistence *)

Section PersistenceFacts.
Context {embedding document : Type}.
Context `{E : Embedder embedding} `{M : L2 embedding}.
Implicit Types (w : @world embedding document)
  (d : @disk embedding document).

Lemma load_index_fs w : fs (load_index w) = fs w.
Proof.
  unfold load_index.
  destruct (exists_file (index_file (fs w)) && exists_file (metadata_file (fs w)));
    [|reflexivity].
  destruct (index_file (fs w)); try reflexivity.
  destruct (metadata_file (fs w)) as [| |data]; try reflexivity.
  destruct (pk_metadata data); [destruct (pk_next_id data)|]; reflexivity.
Qed.

(** X20.  Construction returns a store for every pair of artifacts and
    never changes them.  After a load that does not get through both
    files [next_id] is 0; the store is the empty store whenever an
    artifact is missing or the index artifact cannot be read. *)
Lemma failed_load_state :
  forall d,
    let w := VectorEngine d in
    fs w = d /\
    (loadable d = false ->
     next_id (eng w) = 0 /\
     (exists_file (index_file d) && exists_file (metadata_file d) = false \/
      index_file d = Corrupt ->
      eng w = empty_engine /\ get_stats w = Stats 0 dimension 0)).
Proof.
  intros d w. split; [apply load_index_fs|]. intros Hfail.
  unfold w, VectorEngine, load_index, loadable in *. simpl.
  destruct (index_file d) as [| |i]; destruct (metadata_file d) as [| |data];
    simpl in *;
    try (destruct (pk_metadata data) as [m|];
         [destruct (pk_next_id data) as [n|]|]; simpl in * );
    try discriminate;
    (split; [reflexivity|];
     intros [Hx|Hx]; try discriminate; split; reflexivity).
Qed.

Lemma get_some_len (m : Dict.t document) key v :
  Dict.get m key = Some v -> 0 < Dict.len m.
Proof.
  destruct m as [|p m]; [discriminate|]. intros _. unfold Dict.len. simpl. lia.
Qed.

(** A successful add has stored at least one document. *)
Lemma add_success_size texts metas w ids w' :
  add_embeddings texts metas w = (VectorIds ids, w') ->
  0 < Dict.len (metadata (eng w')).
Proof.
  unfold add_embeddings.
  destruct (encode texts) as [embs|msg]; [|discriminate].
  destruct (assign_ids metas (metadata (eng w)) (next_id (eng w)))
    as [[ids0 m'] n'] eqn:Hloop.
  destruct (add_with_ids (id_map (eng w)) embs ids0) as [i'|msg] eqn:Hadd;
    [|discriminate].
  intros Heq. injection Heq as _ <-.
  apply add_with_ids_ok in Hadd. destruct Hadd as [Hrows [Hlen _]].
  destruct (assign_ids_shape _ _ _ _ _ _ Hloop) as [Hshape _].
  assert (Hm' : 0 < Dict.len m').
  { destruct metas as [|meta rest].
    - simpl in Hshape. subst ids0. destruct embs; [contradiction | discriminate].
    - apply (get_some_len m' (next_id (eng w) + Z.of_nat 0) meta).
      eapply assign_ids_get; [exact Hloop | reflexivity]. }
  destruct (Dict.len m' mod 100 =? 0); [rewrite save_index_eng|]; exact Hm'.
Qed.

(** C5.  A successful [add_embeddings] leaves at least one entry in the
    metadata mapping, and it runs [save_index] once before it returns
    exactly when the size of the mapping after the insertions is a
    positive multiple of 100; otherwise, and so for a size of 0, it does
    not run it. *)
Theorem add_saves_on_positive_multiples_of_100 :
  forall texts metas w ids w',
    add_embeddings texts metas w = (VectorIds ids, w') ->
    let size := Dict.len (metadata (eng w')) in
    0 < size /\
    (save_calls (log w') = S (save_calls (log w)) <->
     0 < size /\ size mod 100 = 0) /\
    (save_calls (log w') = save_calls (log w) <->
     ~ (0 < size /\ size mod 100 = 0)) /\
    (size = 0 -> save_calls (log w') = save_calls (log w)).
Proof.
  intros texts metas w ids w' Hadd size.
  pose proof (add_success_size _ _ _ _ _ Hadd) as Hpos. fold size in Hpos.
  split; [exact Hpos|].
  assert (Hcalls :
            (size mod 100 = 0 ->
             save_calls (log w') = S (save_calls (log w))) /\
            (size mod 100 <> 0 ->
             save_calls (log w') = save_calls (log w))).
  { revert Hadd. unfold size. unfold add_embeddings.
    destruct (encode texts) as [embs|msg]; [|discriminate].
    destruct (assign_ids metas (metadata (eng w)) (next_id (eng w)))
      as [[ids0 m'] n'].
    destruct (add_with_ids (id_map (eng w)) embs ids0) as [i'|msg];
      [|discriminate].
    intros Heq. injection Heq as _ <-.
    destruct (Dict.len m' mod 100 =? 0) eqn:Hmod.
    - apply Z.eqb_eq in Hmod.
      rewrite save_index_eng, save_index_calls. simpl.
      split; [reflexivity | intros Hne; contradiction].
    - apply Z.eqb_neq in Hmod. simpl.
      split; [intros H0; contradiction | reflexivity]. }
  destruct Hcalls as [Hsave Hskip].
  destruct (Z.eq_dec (size mod 100) 0) as [Hmod|Hmod].
  - rewrite (Hsave Hmod). repeat split; intros; try assumption; try lia; tauto.
  - rewrite (Hskip Hmod). repeat split; intros; try lia; tauto.
Qed.

Lemma search_result_eng query k w1 w2 :
  eng w1 = eng w2 -> fst (search query k w1) = fst (search query k w2).
Proof.
  intros Heq. unfold search. rewrite Heq.
  destruct (ntotal (id_map (eng w2)) =? 0); [reflexivity|].
  destruct (encode [query]) as [[|qv qs]|msg]; try reflexivity.
  destruct (index_search _ _ _); reflexivity.
Qed.

Lemma save_then_load_eng w :
  index_writable (fs w) = true ->
  metadata_writable (fs w) = true ->
  eng (VectorEngine (fs (save_index w))) = eng w.
Proof.
  intros Hi Hm. unfold save_index. rewrite Hi, Hm.
  unfold VectorEngine, load_index. simpl.
  destruct (eng w); reflexivity.
Qed.

(** C8.  After [save_index] has written both artifacts, a store
    constructed over them has the same [total_vectors],
    [metadata_count] and [next_id] as the store that saved, and
    answers every query with every [k] in the same way. *)
Theorem save_load_round_trip :
  forall w,
    index_writable (fs w) = true ->
    metadata_writable (fs w) = true ->
    let w' := VectorEngine (fs (save_index w)) in
    ntotal (id_map (eng w')) = ntotal (id_map (eng w)) /\
    Dict.len (metadata (eng w')) = Dict.len (metadata (eng w)) /\
    next_id (eng w') = next_id (eng w) /\
    get_stats w' = get_stats w /\
    forall query k, fst (search query k w') = fst (search query k w).
Proof.
  intros w Hi Hm w'.
  assert (Heng : eng w' = eng w) by now apply save_then_load_eng.
  unfold get_stats. rewrite Heng. repeat split.
  intros query k. now apply search_result_eng.
Qed.
End PersistenceFacts.

(** C4.  The claim asks for the empty store after every failed load.
    [load_index] replaces [self.id_map] before it opens the metadata
    file, so with a readable index artifact and an unreadable metadata
    artifact the load fails and the store starts with the vector read
    from disk, no metadata and [next_id = 0]. *)
Lemma load_keeps_index_when_metadata_unreadable :
  let d := {| index_file := Holds [(0, 1%Q)];
              metadata_file := (Corrupt : artifact (@pickled string));
              index_writable := true; metadata_writable := true;
              index_truncated_on_failure := false;
              metadata_truncated_on_failure := false |} in
  loadable d = false /\
  log (VectorEngine d) = [FailedLoad] /\
  id_map (eng (VectorEngine d)) = [(0, 1%Q)] /\
  get_stats (VectorEngine d) = Stats 1 1 0 /\
  next_id (eng (VectorEngine d)) = 0 /\
  eng (VectorEngine d) <> empty_engine.
Proof. simpl. repeat split. discriminate. Qed.

Lemma add_saves_witness :
  let w' := snd (add_embeddings ["A"] ["m0"] Tiny.fresh) in
  add_embeddings ["A"] ["m0"] Tiny.fresh = (VectorIds [0], w') /\
  (save_calls (log w') = S (save_calls (log Tiny.fresh)) <->
   0 < Dict.len (metadata (eng w')) /\
   Dict.len (metadata (eng w')) mod 100 = 0).
Proof.
  intros w'.
  assert (Heq : add_embeddings ["A"] ["m0"] Tiny.fresh = (VectorIds [0], w'))
    by reflexivity.
  split; [exact Heq|].
  exact (proj1 (proj2
    (add_saves_on_positive_multiples_of_100 ["A"] ["m0"] Tiny.fresh [0] w'
       Heq))).
Defined.

Lemma save_load_round_trip_witness :
  index_writable (fs Tiny.after_add) = true /\
  metadata_writable (fs Tiny.after_add) = true /\
  forall query k,
    fst (search query k (VectorEngine (fs (save_index Tiny.after_add))))
    = fst (search query k Tiny.after_add).
Proof.
  split; [reflexivity|]. split; [reflexivity|].
  exact (proj2 (proj2 (proj2 (proj2
    (save_load_round_trip Tiny.after_add eq_refl eq_refl))))).
Defined.

(** ** [search] *)

Section SearchFacts.
Context {embedding document : Type}.
Context `{E : Embedder embedding} `{M : L2 embedding}.
Implicit Types (m : Dict.t document) (w : @world embedding document)
  (i : @index embedding) (c : candidate) (l cands : list candidate).

Lemma insert_candidate_in c l x :
  In x (insert_candidate c l) <-> x = c \/ In x l.
Proof.
  induction l as [|c' l IH]; simpl.
  - split; [intros [H|[]]; auto | intros [H|[]]; auto].
  - destruct (Qle_bool (snd c) (snd c')); simpl.
    + split; [intros [H|H]; auto | intros [H|H]; auto].
    + rewrite IH. split; [intros [H|[H|H]]; auto | intros [H|[H|H]]; auto].
Qed.

Lemma sort_candidates_in l x : In x (sort_candidates l) <-> In x l.
Proof.
  induction l as [|c l IH]; simpl; [tauto|].
  rewrite insert_candidate_in, IH. split; intros [H|H]; auto.
Qed.

Lemma insert_candidate_length c l :
  length (insert_candidate c l) = S (length l).
Proof.
  induction l as [|c' l IH]; simpl; [reflexivity|].
  destruct (Qle_bool (snd c) (snd c')); simpl; [reflexivity | now rewrite IH].
Qed.

Lemma sort_candidates_length l : length (sort_candidates l) = length l.
Proof.
  induction l as [|c l IH]; simpl; [reflexivity|].
  now rewrite insert_candidate_length, IH.
Qed.

Lemma distances_ids i q : map fst (distances i q) = map fst i.
Proof. unfold distances. rewrite map_map. reflexivity. Qed.

Lemma distances_length i q : length (distances i q) = length i.
Proof. unfold distances. apply length_map. Qed.

(** A search for a positive [k] that does not exceed [ntotal] reports
    exactly [k] candidates, all of them stored in the index. *)
Lemma index_search_positive i q k :
  0 < k <= ntotal i ->
  exists cands,
    index_search i q k = Ok cands /\
    Z.of_nat (length cands) = k /\
    incl (map fst cands) (map fst i).
Proof.
  intros [Hpos Hle]. unfold index_search.
  destruct (k <=? 0) eqn:Hk; [apply Z.leb_le in Hk; lia|].
  eexists. split; [reflexivity|]. split.
  - rewrite length_firstn, sort_candidates_length, distances_length.
    unfold ntotal in Hle. lia.
  - intros id Hid. apply in_map_iff in Hid. destruct Hid as [c [Hc Hin]].
    apply firstn_In in Hin. apply -> sort_candidates_in in Hin.
    rewrite <- (distances_ids i q). subst id. now apply in_map.
Qed.

(** Asked for all of its rows, the index reports every stored id. *)
Lemma index_search_all i q :
  0 < ntotal i ->
  exists cands,
    index_search i q (ntotal i) = Ok cands /\
    forall id, In id (map fst i) -> In id (map fst cands).
Proof.
  intros Hpos. unfold index_search.
  destruct (ntotal i <=? 0) eqn:Hk; [apply Z.leb_le in Hk; lia|].
  eexists. split; [reflexivity|]. intros id Hid.
  rewrite firstn_all2.
  - rewrite <- (distances_ids i q) in Hid.
    apply in_map_iff in Hid. destruct Hid as [c [Hc Hin]].
    apply in_map_iff. exists c. split; [exact Hc|].
    now apply <- sort_candidates_in.
  - rewrite sort_candidates_length, distances_length. unfold ntotal. lia.
Qed.

Lemma to_hit_kept m c :
  kept m c = true <-> exists h, to_hit m c = Some h.
Proof.
  unfold kept, to_hit, Dict.mem.
  destruct (fst c =? -1); simpl.
  - split; [discriminate | intros [h Hh]; discriminate].
  - destruct (Dict.get m (fst c)); split; eauto; try discriminate.
    intros [h Hh]. discriminate.
Qed.

Lemma kept_spec m c :
  kept m c = true <-> fst c <> -1 /\ In (fst c) (Dict.keys m).
Proof.
  unfold kept. rewrite andb_true_iff, negb_true_iff, Z.eqb_neq, mem_keys.
  reflexivity.
Qed.

Lemma to_hit_fields m c h :
  to_hit m c = Some h ->
  Dict.get m (fst c) = Some (hit_metadata h) /\
  distance h = snd c /\
  relevance h = (1 / (1 + snd c))%Q.
Proof.
  unfold to_hit. destruct (fst c =? -1); [discriminate|].
  destruct (Dict.get m (fst c)); [|discriminate].
  intros Heq. injection Heq as <-. simpl. auto.
Qed.

(** The loop of [search] turns the candidates it keeps into hits, one
    for one and in order. *)
Lemma collect_kept m cands :
  Forall2 (fun c h => to_hit m c = Some h)
    (filter (kept m) cands) (collect m cands).
Proof.
  induction cands as [|c rest IH]; simpl; [constructor|].
  destruct (to_hit m c) as [h|] eqn:Hh.
  - assert (Hk : kept m c = true) by (apply to_hit_kept; eauto).
    rewrite Hk. constructor; assumption.
  - destruct (kept m c) eqn:Hk; [|exact IH].
    apply to_hit_kept in Hk. destruct Hk as [h Hk]. congruence.
Qed.

Lemma collect_length m cands :
  length (collect m cands) = length (filter (kept m) cands).
Proof. symmetry. eapply Forall2_length, collect_kept. Qed.

Lemma filter_length_all {A : Type} (f : A -> bool) (l : list A) :
  Forall (fun a => f a = true) l -> length (filter f l) = length l.
Proof.
  induction 1 as [|a l Ha Hl IH]; simpl; [reflexivity|].
  rewrite Ha. simpl. now rewrite IH.
Qed.

Lemma filter_length_drop {A : Type} (f : A -> bool) (l : list A) a :
  In a l -> f a = false -> (length (filter f l) < length l)%nat.
Proof.
  induction l as [|b l IH]; simpl; intros Hin Hf; [contradiction|].
  pose proof (filter_length_le f l) as Hle.
  destruct Hin as [->|Hin].
  - rewrite Hf. lia.
  - specialize (IH Hin Hf). destruct (f b); simpl; lia.
Qed.

Lemma search_reported query k w :
  fst (search query k w) = collect (metadata (eng w)) (reported query k w).
Proof.
  unfold search, reported.
  destruct (ntotal (id_map (eng w)) =? 0); [reflexivity|].
  destruct (encode [query]) as [[|qv qs]|msg]; try reflexivity.
  destruct (index_search _ _ _); reflexivity.
Qed.

Lemma reported_ids query k w :
  incl (map fst (reported query k w)) (index_ids (eng w)).
Proof.
  unfold reported, index_search, index_ids.
  destruct (ntotal (id_map (eng w)) =? 0); [intros a []|].
  destruct (encode [query]) as [[|qv qs]|msg]; try (intros a []).
  destruct (Z.min k (ntotal (id_map (eng w))) <=? 0); [intros a []|].
  intros id Hid. apply in_map_iff in Hid. destruct Hid as [c [Hc Hin]].
  apply firstn_In in Hin. apply -> sort_candidates_in in Hin.
  rewrite <- (distances_ids (id_map (eng w)) qv). subst id. now apply in_map.
Qed.

Lemma reported_length query k w :
  Z.of_nat (length (reported query k w))
  <= Z.max 0 (Z.min k (ntotal (id_map (eng w)))).
Proof.
  unfold reported, index_search.
  destruct (ntotal (id_map (eng w)) =? 0); [simpl; lia|].
  destruct (encode [query]) as [[|qv qs]|msg]; try (simpl; lia).
  destruct (Z.min k (ntotal (id_map (eng w))) <=? 0) eqn:Hk; [simpl; lia|].
  apply Z.leb_gt in Hk. rewrite length_firstn. lia.
Qed.
End SearchFacts.

Section SearchClaims.
Context {embedding document : Type}.
Context `{E : Embedder embedding} `{M : L2 embedding}.
Implicit Types (m : Dict.t document) (w : @world embedding document)
  (i : @index embedding) (c : candidate) (l cands : list candidate).

(** As soon as one candidate is reported, as many are reported as were
    asked for. *)
Lemma reported_positive query k w c :
  In c (reported query k w) ->
  Z.of_nat (length (reported query k w))
  = Z.min k (ntotal (id_map (eng w))).
Proof.
  unfold reported.
  destruct (ntotal (id_map (eng w)) =? 0) eqn:Hn; [intros []|].
  apply Z.eqb_neq in Hn.
  destruct (encode [query]) as [[|qv qs]|msg]; try (intros []).
  destruct (Z_le_gt_dec (Z.min k (ntotal (id_map (eng w)))) 0) as [Hle|Hgt].
  - unfold index_search. apply Z.leb_le in Hle. rewrite Hle. intros [].
  - destruct (index_search_positive (id_map (eng w)) qv
                (Z.min k (ntotal (id_map (eng w))))) as [cands [Hs [Hl _]]];
      [lia|].
    rewrite Hs. intros _. exact Hl.
Qed.

(** With [k] at least [ntotal] and the query encoded, every stored id
    is reported. *)
Lemma reported_all query k w qv qs id :
  ntotal (id_map (eng w)) <= k ->
  encode [query] = Ok (qv :: qs) ->
  In id (index_ids (eng w)) ->
  In id (map fst (reported query k w)).
Proof.
  intros Hk Henc Hid. unfold reported, index_ids in *.
  assert (Hpos : 0 < ntotal (id_map (eng w))).
  { unfold ntotal. destruct (id_map (eng w)); [contradiction | simpl; lia]. }
  destruct (ntotal (id_map (eng w)) =? 0) eqn:Hn;
    [apply Z.eqb_eq in Hn; lia|].
  rewrite Henc, Z.min_r by lia.
  destruct (index_search_all (id_map (eng w)) qv Hpos) as [cands [Hs Hall]].
  rewrite Hs. now apply Hall.
Qed.

Lemma dropped_spec m c :
  fst c = -1 \/ ~ In (fst c) (Dict.keys m) -> kept m c = false.
Proof.
  intros Hd. destruct (kept m c) eqn:Hk; [|reflexivity].
  apply kept_spec in Hk. destruct Hk as [Hne Hin]. destruct Hd; contradiction.
Qed.

(** When all vectors are asked for and the index holds an id that is
    -1 or has no metadata, a search returns fewer hits than it asked
    the index for. *)
Lemma search_short query k w id :
  ntotal (id_map (eng w)) <= k ->
  In id (index_ids (eng w)) ->
  id = -1 \/ ~ In id (Dict.keys (metadata (eng w))) ->
  Z.of_nat (length (fst (search query k w)))
  < Z.min k (ntotal (id_map (eng w))).
Proof.
  intros Hk Hid Hd.
  assert (Hpos : 0 < ntotal (id_map (eng w))).
  { unfold ntotal, index_ids in *.
    destruct (id_map (eng w)); [contradiction | simpl; lia]. }
  rewrite search_reported.
  destruct (encode [query]) as [[|qv qs]|msg] eqn:Henc.
  - unfold reported.
    destruct (ntotal (id_map (eng w)) =? 0); rewrite ?Henc; simpl; lia.
  - pose proof (reported_all query k w qv qs id Hk Henc Hid) as Hrep.
    apply in_map_iff in Hrep. destruct Hrep as [c [Hc Hin]].
    rewrite collect_length.
    assert (Hdrop : kept (metadata (eng w)) c = false)
      by (apply dropped_spec; now rewrite Hc).
    pose proof (filter_length_drop (kept (metadata (eng w))) _ c Hin Hdrop).
    rewrite <- (reported_positive _ _ _ _ Hin). lia.
  - unfold reported.
    destruct (ntotal (id_map (eng w)) =? 0); rewrite ?Henc; simpl; lia.
Qed.

(** C6 (amended).  [search] returns the empty list on a store without
    vectors, whatever [k] is, and for every [k <= 0].  On a non-empty
    store, with [k] above [total_vectors], it returns exactly
    [total_vectors] results provided the query is encoded and every id
    of the index is a key of the metadata mapping other than -1;
    otherwise, when encoding the query raises or the index holds an id
    that is -1 or not a key of the metadata mapping, it returns
    fewer. *)
Theorem search_result_sizes :
  forall query k w,
    (ntotal (id_map (eng w)) = 0 -> fst (search query k w) = []) /\
    (k <= 0 -> fst (search query k w) = []) /\
    (0 < ntotal (id_map (eng w)) ->
     ntotal (id_map (eng w)) < k ->
     (exists qv, encode [query] = Ok [qv]) ->
     Forall (fun id => id <> -1 /\ In id (Dict.keys (metadata (eng w))))
       (index_ids (eng w)) ->
     Z.of_nat (length (fst (search query k w)))
     = ntotal (id_map (eng w))) /\
    (0 < ntotal (id_map (eng w)) ->
     ntotal (id_map (eng w)) < k ->
     (exists msg, encode [query] = Raise msg) \/
     (exists id, In id (index_ids (eng w)) /\
                 (id = -1 \/ ~ In id (Dict.keys (metadata (eng w))))) ->
     Z.of_nat (length (fst (search query k w)))
     < ntotal (id_map (eng w))).
Proof.
  intros query k w. split; [|split; [|split]]; cycle 3.
  { intros Hpos Hbig [[msg Henc]|[id [Hid Hd]]].
    - unfold search.
      destruct (ntotal (id_map (eng w)) =? 0); rewrite ?Henc; simpl; exact Hpos.
    - pose proof (search_short query k w id) as Hshort.
      specialize (Hshort ltac:(lia) Hid Hd). lia. }
  - intros H0. unfold search. now rewrite H0.
  - intros Hk. unfold search.
    destruct (ntotal (id_map (eng w)) =? 0); [reflexivity|].
    destruct (encode [query]) as [[|qv qs]|msg]; try reflexivity.
    unfold index_search.
    assert (Hmin : (Z.min k (ntotal (id_map (eng w))) <=? 0) = true)
      by (apply Z.leb_le; lia).
    now rewrite Hmin.
  - intros Hpos Hbig [qv Henc] Hall.
    rewrite search_reported, collect_length.
    assert (Hrep : forall id, In id (index_ids (eng w)) ->
                              In id (map fst (reported query k w))).
    { intros id Hid. eapply reported_all; eauto. lia. }
    assert (Hsome : exists c, In c (reported query k w)).
    { unfold index_ids in *. destruct (id_map (eng w)) as [|p i0] eqn:Hi.
      - unfold ntotal in Hpos. simpl in Hpos. lia.
      - specialize (Hrep (fst p)). simpl in Hrep.
        apply in_map_iff in Hrep; [|auto]. destruct Hrep as [c [_ Hc]]. eauto. }
    destruct Hsome as [c0 Hc0].
    rewrite filter_length_all.
    + rewrite (reported_positive _ _ _ _ Hc0). lia.
    + rewrite Forall_forall. intros c Hc. apply kept_spec.
      rewrite Forall_forall in Hall. apply Hall.
      apply reported_ids with (query := query) (k := k).
      now apply in_map.
Qed.

(** C10 (amended).  Every hit of [search] is built from a candidate reported by
    the index whose id is not -1 and is a key of the metadata mapping,
    and carries the document stored under that id; a candidate that is
    -1 or has no entry is skipped without an error.  So a search
    returns at most [min(k, total_vectors)] hits, strictly fewer when
    a reported candidate is dropped, which is bound to happen when all
    vectors are asked for and the index holds an id that the metadata
    mapping lacks. *)
Theorem search_drops_unknown_ids :
  forall query k w,
    let m := metadata (eng w) in
    let total := ntotal (id_map (eng w)) in
    let hits := fst (search query k w) in
    let cands := reported query k w in
    Forall2 (fun c h => Dict.get m (fst c) = Some (hit_metadata h) /\
                        distance h = snd c)
      (filter (kept m) cands) hits /\
    Forall (fun c => fst c <> -1 /\ In (fst c) (Dict.keys m) /\
                     In (fst c) (index_ids (eng w)))
      (filter (kept m) cands) /\
    Z.of_nat (length hits) <= Z.max 0 (Z.min k total) /\
    ((exists c, In c cands /\ (fst c = -1 \/ ~ In (fst c) (Dict.keys m))) ->
     Z.of_nat (length hits) < Z.min k total) /\
    (total <= k ->
     (exists id, In id (index_ids (eng w)) /\
                 (id = -1 \/ ~ In id (Dict.keys m))) ->
     Z.of_nat (length hits) < Z.min k total).
Proof.
  intros query k w m total hits cands.
  assert (Hhits : hits = collect m cands) by apply search_reported.
  assert (Hdrop : (exists c, In c cands /\
                             (fst c = -1 \/ ~ In (fst c) (Dict.keys m))) ->
                  Z.of_nat (length hits) < Z.min k total).
  { intros [c [Hc Hd]]. rewrite Hhits, collect_length.
    pose proof (filter_length_drop (kept m) cands c Hc (dropped_spec m c Hd)).
    unfold cands, total in *. rewrite <- (reported_positive _ _ _ _ Hc). lia. }
  split; [|split; [|split; [|split]]].
  - rewrite Hhits.
    eapply Forall2_impl; [|apply collect_kept].
    intros c h Hh. apply to_hit_fields in Hh. tauto.
  - rewrite Forall_forall. intros c Hc. apply filter_In in Hc.
    destruct Hc as [Hin Hk]. apply kept_spec in Hk. destruct Hk as [Hne Hkey].
    repeat split; try assumption.
    apply reported_ids with (query := query) (k := k). now apply in_map.
  - rewrite Hhits, collect_length.
    pose proof (filter_length_le (kept m) cands).
    pose proof (reported_length query k w). unfold cands, total in *. lia.
  - exact Hdrop.
  - intros Hk [id [Hid Hd]].
    assert (Hpos : 0 < total).
    { unfold total, ntotal, index_ids in *.
      destruct (id_map (eng w)); [contradiction | simpl; lia]. }
    destruct (encode [query]) as [[|qv qs]|msg] eqn:Henc.
    + rewrite Hhits. unfold cands, reported.
      destruct (ntotal (id_map (eng w)) =? 0); rewrite ?Henc; simpl; lia.
    + apply Hdrop.
      pose proof (reported_all query k w qv qs id Hk Henc Hid) as Hrep.
      apply in_map_iff in Hrep. destruct Hrep as [c [Hc Hin]].
      exists c. split; [exact Hin | now rewrite Hc].
    + rewrite Hhits. unfold cands, reported.
      destruct (ntotal (id_map (eng w)) =? 0); rewrite ?Henc; simpl; lia.
Qed.
End SearchClaims.

(** C6, as stated, fails on the store left by a failed removal: the
    index holds one vector, under id 0, the metadata mapping holds id 1
    alone, and a search with [k = 5] returns nothing. *)
Lemma search_result_sizes_counterexample :
  let w := Tiny.after_failed_remove in
  index_ids (eng w) = [0] /\
  Dict.keys (metadata (eng w)) = [1] /\
  0 < ntotal (id_map (eng w)) /\
  ntotal (id_map (eng w)) < 5 /\
  fst (search "A" 5 w) = [] /\
  Z.of_nat (length (fst (search "A" 5 w))) <> ntotal (id_map (eng w)).
Proof. simpl. repeat split; try reflexivity. discriminate. Qed.

Lemma search_result_sizes_witness :
  let w := Tiny.after_add in
  0 < ntotal (id_map (eng w)) /\
  ntotal (id_map (eng w)) < 5 /\
  Z.of_nat (length (fst (search "A" 5 w))) = ntotal (id_map (eng w)).
Proof.
  intros w.
  assert (Hpos : 0 < ntotal (id_map (eng w))) by reflexivity.
  assert (Hbig : ntotal (id_map (eng w)) < 5) by reflexivity.
  split; [exact Hpos|]. split; [exact Hbig|].
  apply (proj1 (proj2 (proj2 (search_result_sizes "A" 5 w))) Hpos Hbig).
  - exists (Tiny.embed "A"). reflexivity.
  - repeat constructor; simpl; auto; discriminate.
Defined.

(** C10, as stated, fails for a [k] below [total_vectors]: after a
    removal that could not rebuild, the index holds ids 0 and 1 and the
    metadata mapping id 0 alone, so the index holds an id that the
    mapping lacks; a search with [k = 1] reports the vector of id 0 and
    returns one hit, which is [min(k, total_vectors)] and not fewer. *)
Lemma search_drops_unknown_ids_counterexample :
  let w := run_all [Add ["A"; "BB"] ["m0"; "m1"]; Remove [1]] Tiny.fresh in
  index_ids (eng w) = [0; 1] /\
  Dict.keys (metadata (eng w)) = [0] /\
  In 1 (index_ids (eng w)) /\
  ~ In 1 (Dict.keys (metadata (eng w))) /\
  map (@hit_metadata string) (fst (search "A" 1 w)) = ["m0"] /\
  Z.of_nat (length (fst (search "A" 1 w)))
  = Z.min 1 (ntotal (id_map (eng w))).
Proof.
  simpl. repeat split; try reflexivity; auto.
  intros [H|[]]. discriminate.
Qed.

Lemma search_drops_unknown_ids_witness :
  let w := Tiny.after_failed_remove in
  ntotal (id_map (eng w)) <= 5 /\
  Z.of_nat (length (fst (search "A" 5 w))) < Z.min 5 (ntotal (id_map (eng w))).
Proof.
  intros w.
  assert (Hk : ntotal (id_map (eng w)) <= 5) by (vm_compute; discriminate).
  split; [exact Hk|].
  apply (proj2 (proj2 (proj2 (proj2 (search_drops_unknown_ids "A" 5 w)))) Hk).
  exists 0. split; [simpl; auto|].
  right. simpl. intros [H|[]]. discriminate.
Defined.

(** ** The order of the results *)

Section OrderFacts.
Context {embedding document : Type}.
Context `{E : Embedder embedding} `{M : L2 embedding}.
Implicit Types (m : Dict.t document) (w : @world embedding document)
  (e : @engine embedding document) (c : candidate)
  (l cands : list candidate).






(** *** The invariant that ids ascend *)

Lemma insertion_ordered_empty :
  insertion_ordered (@empty_engine embedding document).
Proof. repeat split; constructor. Qed.

Lemma Forall_below (n n' : Z) (ids : list Z) :
  n <= n' -> Forall (fun id => id < n) ids -> Forall (fun id => id < n') ids.
Proof.
  intros Hle H. eapply Forall_impl; [|exact H]. simpl. intros a Ha. lia.
Qed.

Lemma sorted_then_consecutive (ids : list Z) n len :
  StronglySorted Z.lt ids ->
  Forall (fun id => id < n) ids ->
  StronglySorted Z.lt (ids ++ consecutive n len) /\
  Forall (fun id => id < n + Z.of_nat len) (ids ++ consecutive n len).
Proof.
  intros Hs Hb. split.
  - apply StronglySorted_app; [exact Hs | apply consecutive_sorted|].
    intros a b Ha Hin.
    rewrite Forall_forall in Hb. apply Hb in Ha.
    pose proof (consecutive_bounds n len) as Hc.
    rewrite Forall_forall in Hc. apply Hc in Hin. lia.
  - apply Forall_app. split.
    + apply Forall_below with (n := n); [lia | exact Hb].
    + eapply Forall_impl; [|apply consecutive_bounds]. simpl. intros a Ha. lia.
Qed.

Lemma add_insertion_ordered texts metas w :
  insertion_ordered (eng w) ->
  insertion_ordered (eng (snd (add_embeddings texts metas w))).
Proof.
  intros [Hsi [Hsk [Hbi Hbk]]]. unfold add_embeddings.
  destruct (encode texts) as [embs|msg] eqn:Henc; [|repeat split; assumption].
  destruct (assign_ids metas (metadata (eng w)) (next_id (eng w)))
    as [[ids m'] n'] eqn:Hloop.
  destruct (assign_ids_shape _ _ _ _ _ _ Hloop) as [Hshape Hn'].
  pose proof (assign_ids_keys _ _ _ _ _ _ Hloop Hbk) as Hkeys.
  destruct (sorted_then_consecutive _ _ (length metas) Hsk Hbk) as [Hsk' Hbk'].
  destruct (sorted_then_consecutive _ _ (length metas) Hsi Hbi) as [Hsi' Hbi'].
  destruct (add_with_ids (id_map (eng w)) embs ids) as [i'|msg] eqn:Hadd.
  - apply add_with_ids_ok in Hadd. destruct Hadd as [_ [Hrows ->]].
    assert (Hnew : insertion_ordered
                     {| id_map := id_map (eng w) ++ combine ids embs;
                        metadata := m'; next_id := n' |}).
    { unfold insertion_ordered, index_ids. simpl.
      rewrite map_app, map_fst_combine by (now rewrite Hrows).
      rewrite Hkeys, Hshape, Hn'. repeat split; assumption. }
    simpl. destruct (Dict.len m' mod 100 =? 0); [rewrite save_index_eng|];
      exact Hnew.
  - unfold insertion_ordered, index_ids. simpl.
    rewrite Hkeys, Hshape, Hn'. repeat split; try assumption.
    apply Forall_below with (n := next_id (eng w)); [lia | exact Hbi].
Qed.

Lemma remove_insertion_ordered vector_ids w :
  insertion_ordered (eng w) ->
  insertion_ordered (eng (snd (remove_embeddings vector_ids w))).
Proof.
  intros [Hsi [Hsk [Hbi Hbk]]]. unfold remove_embeddings.
  set (m' := delete_all vector_ids (metadata (eng w))).
  assert (Hsk' : StronglySorted Z.lt (Dict.keys m')).
  { apply (delete_all_keys (StronglySorted Z.lt));
      [intros; now apply StronglySorted_filter | exact Hsk]. }
  assert (Hbk' : Forall (fun id => id < next_id (eng w)) (Dict.keys m')).
  { apply (delete_all_keys (Forall (fun id => id < next_id (eng w))));
      [intros; now apply Forall_filter | exact Hbk]. }
  destruct (rebuild (id_map (eng w)) (Dict.keys m')) as [i'|msg] eqn:Hr; simpl.
  - rewrite save_index_eng. apply rebuild_ids in Hr.
    unfold insertion_ordered, index_ids. simpl. rewrite Hr.
    repeat split; assumption.
  - repeat split; assumption.
Qed.

Lemma run_insertion_ordered o w :
  insertion_ordered (eng w) -> insertion_ordered (eng (run o w)).
Proof.
  destruct o as [texts metas|query k|vector_ids|]; simpl; intros Hc.
  - now apply add_insertion_ordered.
  - now rewrite search_eng.
  - now apply remove_insertion_ordered.
  - exact Hc.
Qed.

(** Every store built by calls on an ordered store (the empty store
    for one) is ordered, whatever the calls and however they end. *)
Lemma run_all_insertion_ordered ops :
  forall w,
    insertion_ordered (eng w) -> insertion_ordered (eng (run_all ops w)).
Proof.
  induction ops as [|o ops IH]; simpl; intros w Hc; [exact Hc|].
  apply IH. now apply run_insertion_ordered.
Qed.

End OrderFacts.

(** ** [process_request] *)

Section DispatchFacts.
Context {embedding document json : Type}.
Context `{E : Embedder embedding} `{M : L2 embedding}.
Implicit Types (w : @world embedding document)
  (h : @handlers embedding document)
  (req : @request document json).

Lemma action_is_false (action : option string) (name : string) :
  action <> Some name -> action_is action name = false.
Proof.
  intros Hne. destruct action as [s|]; [|reflexivity]. simpl.
  destruct (String.eqb s name) eqn:Heq; [|reflexivity].
  apply String.eqb_eq in Heq. subst. contradiction.
Qed.

Lemma action_is_true (name : string) : action_is (Some name) name = true.
Proof. simpl. apply String.eqb_refl. Qed.

(** C9.  A request whose action is none of [add], [search], [remove]
    and [stats] is answered with the request id and a [result] that is
    the object [{"error": "Unknown action: <action>"}], with no
    top-level [error]; the handlers are not called.  When the handler
    of a known action raises, the answer carries the request id and a
    top-level [error] with the text of the exception, and no
    [result]. *)
Theorem process_request_error_shapes :
  forall h req w,
    (req_action req <> Some "add" ->
     req_action req <> Some "search" ->
     req_action req <> Some "remove" ->
     req_action req <> Some "stats" ->
     process_request_with h req w
     = ({| requestId := req_requestId req;
           result_field :=
             Some (Error (String.append "Unknown action: "
                            (format_action (req_action req))));
           error_field := None |}, w)) /\
    (forall msg,
        (req_action req = Some "add" /\
         fst (h_add h (get_or (req_texts req) [])
                (get_or (req_metadata req) []) w) = Raise msg) \/
        (req_action req = Some "search" /\
         fst (h_search h (get_or (req_query req) "")
                (get_or (req_k req) 10) w) = Raise msg) \/
        (req_action req = Some "remove" /\
         fst (h_remove h (get_or (req_vectorIds req) []) w) = Raise msg) \/
        (req_action req = Some "stats" /\
         fst (h_stats h w) = Raise msg) ->
        fst (process_request_with h req w)
        = {| requestId := req_requestId req;
             result_field := None;
             error_field := Some msg |}).
Proof.
  intros h req w. split.
  - intros Ha Hs Hr Ht. unfold process_request_with.
    now rewrite !action_is_false by assumption.
  - intros msg Hraise. unfold process_request_with.
    destruct Hraise as [[Ha Hm]|[[Ha Hm]|[[Ha Hm]|[Ha Hm]]]]; rewrite Ha; simpl.
    + destruct (h_add h _ _ w) as [out w']. simpl in Hm. now subst out.
    + destruct (h_search h _ _ w) as [out w']. simpl in Hm. now subst out.
    + destruct (h_remove h _ w) as [out w']. simpl in Hm. now subst out.
    + destruct (h_stats h w) as [out w']. simpl in Hm. now subst out.
Qed.

(** The methods of the class catch what they raise, so the engine
    itself never answers with a top-level error. *)
Lemma process_request_has_result req w :
  error_field (fst (process_request req w)) = None /\
  result_field (fst (process_request req w)) <> None.
Proof.
  unfold process_request, process_request_with, engine_handlers. simpl.
  destruct (action_is (req_action req) "add").
  { destruct (add_embeddings _ _ w). simpl. split; [reflexivity | discriminate]. }
  destruct (action_is (req_action req) "search").
  { destruct (search _ _ w). simpl. split; [reflexivity | discriminate]. }
  destruct (action_is (req_action req) "remove").
  { destruct (remove_embeddings _ w). simpl. split; [reflexivity | discriminate]. }
  destruct (action_is (req_action req) "stats"); simpl;
    split; try reflexivity; discriminate.
Qed.
End DispatchFacts.

Lemma process_request_error_shapes_witness :
  process_request Tiny.bogus_request Tiny.fresh
  = ({| requestId := Some "test_req_5";
        result_field := Some (Error "Unknown action: unknown_action");
        error_field := None |}, Tiny.fresh) /\
  fst (process_request_with Tiny.patched Tiny.add_request Tiny.fresh)
  = {| requestId := Some "test_req_7";
       result_field := None;
       error_field := Some "Test error" |}.
Proof.
  split.
  - apply (proj1 (process_request_error_shapes engine_handlers
                    Tiny.bogus_request Tiny.fresh));
      simpl; discriminate.
  - apply (proj2 (process_request_error_shapes Tiny.patched
                    Tiny.add_request Tiny.fresh) "Test error").
    left. split; reflexivity.
Defined.

(** * Further properties of the engine *)

(** ** What a successful [add_embeddings] does *)

Section AddSuccess.
Context {embedding document : Type}.
Context `{E : Embedder embedding} `{M : L2 embedding}.
Implicit Types (m : Dict.t document) (w : @world embedding document)
  (i : @index embedding).

(** A call that returns ids went through every step of the method. *)
Lemma add_success_inv texts metas w ids w' :
  add_embeddings texts metas w = (VectorIds ids, w') ->
  exists embs m',
    encode texts = Ok embs /\
    length embs = length metas /\
    ids = consecutive (next_id (eng w)) (length metas) /\
    assign_ids metas (metadata (eng w)) (next_id (eng w))
    = (ids, m', next_id (eng w) + Z.of_nat (length metas)) /\
    eng w' = {| id_map := id_map (eng w) ++ combine ids embs;
                metadata := m';
                next_id := next_id (eng w) + Z.of_nat (length metas) |}.
Proof.
  unfold add_embeddings.
  destruct (encode texts) as [embs|msg] eqn:Henc; [|discriminate].
  destruct (assign_ids metas (metadata (eng w)) (next_id (eng w)))
    as [[ids0 m'] n'] eqn:Hloop.
  destruct (assign_ids_shape _ _ _ _ _ _ Hloop) as [Hshape Hn'].
  destruct (add_with_ids (id_map (eng w)) embs ids0) as [i'|msg] eqn:Hadd;
    [|discriminate].
  apply add_with_ids_ok in Hadd. destruct Hadd as [_ [Hrows ->]].
  intros Heq. injection Heq as <- <-.
  exists embs, m'. subst n'.
  repeat split; try assumption.
  - rewrite Hrows, Hshape. apply consecutive_length.
  - destruct (Dict.len m' mod 100 =? 0); [rewrite save_index_eng|]; reflexivity.
Qed.

(** X1.  A successful add was given as many texts as documents; it
    returns the ids [next_id, next_id + 1, ...], one per document and in
    the order of the input, moves [next_id] past them, appends exactly
    these ids to the index and stores each document under its id. *)
Theorem add_success_shape :
  forall texts metas w ids w',
    add_embeddings texts metas w = (VectorIds ids, w') ->
    length texts = length metas /\
    ids = consecutive (next_id (eng w)) (length metas) /\
    next_id (eng w') = next_id (eng w) + Z.of_nat (length metas) /\
    index_ids (eng w') = index_ids (eng w) ++ ids /\
    ntotal (id_map (eng w'))
    = ntotal (id_map (eng w)) + Z.of_nat (length texts) /\
    forall j meta,
      nth_error metas j = Some meta ->
      Dict.get (metadata (eng w')) (next_id (eng w) + Z.of_nat j) = Some meta.
Proof.
  intros texts metas w ids w' Hadd.
  destruct (add_success_inv _ _ _ _ _ Hadd)
    as [embs [m' [Henc [Hrows [Hids [Hloop Heng]]]]]].
  pose proof (encode_length _ _ Henc) as Htexts.
  assert (Hlen : length ids = length embs)
    by (rewrite Hids, consecutive_length; now symmetry).
  rewrite Heng. unfold index_ids, ntotal. simpl.
  repeat split.
  - congruence.
  - exact Hids.
  - now rewrite map_app, map_fst_combine.
  - rewrite length_app, length_combine, Hlen, Nat.min_id. lia.
  - intros j meta Hnth. eapply assign_ids_get; eauto.
Qed.

Lemma add_next_id_le texts metas w :
  next_id (eng w) <= next_id (eng (snd (add_embeddings texts metas w))).
Proof.
  unfold add_embeddings.
  destruct (encode texts) as [embs|msg]; [|simpl; lia].
  destruct (assign_ids metas (metadata (eng w)) (next_id (eng w)))
    as [[ids m'] n'] eqn:Hloop.
  destruct (assign_ids_shape _ _ _ _ _ _ Hloop) as [_ Hn'].
  destruct (add_with_ids (id_map (eng w)) embs ids); simpl.
  - destruct (Dict.len m' mod 100 =? 0); [rewrite save_index_eng|]; simpl; lia.
  - lia.
Qed.

Lemma remove_next_id vector_ids w :
  next_id (eng (snd (remove_embeddings vector_ids w))) = next_id (eng w).
Proof.
  unfold remove_embeddings.
  destruct (rebuild _ _); simpl; [rewrite save_index_eng|]; reflexivity.
Qed.

Lemma run_next_id_le o w : next_id (eng w) <= next_id (eng (run o w)).
Proof.
  destruct o as [texts metas|query k|vector_ids|]; simpl.
  - apply add_next_id_le.
  - rewrite search_eng. lia.
  - rewrite remove_next_id. lia.
  - lia.
Qed.

Lemma run_all_next_id_le ops :
  forall w, next_id (eng w) <= next_id (eng (run_all ops w)).
Proof.
  induction ops as [|o ops IH]; intros w; [simpl; lia|].
  change (run_all (o :: ops) w) with (run_all ops (run o w)).
  eapply Z.le_trans; [apply (run_next_id_le o w) | apply IH].
Qed.

(** X2.  Ids are never handed out twice: whatever calls come between
    two successful adds (removals included), every id of the second is
    above every id of the first. *)
Theorem ids_never_reused :
  forall texts1 metas1 w ids1 w1 ops texts2 metas2 ids2 w2,
    add_embeddings texts1 metas1 w = (VectorIds ids1, w1) ->
    add_embeddings texts2 metas2 (run_all ops w1) = (VectorIds ids2, w2) ->
    forall a b, In a ids1 -> In b ids2 -> a < b.
Proof.
  intros texts1 metas1 w ids1 w1 ops texts2 metas2 ids2 w2 H1 H2 a b Ha Hb.
  destruct (add_success_inv _ _ _ _ _ H1) as [e1 [m1 [_ [_ [Hids1 [_ Heng1]]]]]].
  destruct (add_success_inv _ _ _ _ _ H2) as [e2 [m2 [_ [_ [Hids2 _]]]]].
  assert (Hn1 : next_id (eng w1)
                = next_id (eng w) + Z.of_nat (length metas1))
    by now rewrite Heng1.
  pose proof (run_all_next_id_le ops w1) as Hle.
  pose proof (consecutive_bounds (next_id (eng w)) (length metas1)) as B1.
  pose proof (consecutive_bounds (next_id (eng (run_all ops w1)))
                (length metas2)) as B2.
  rewrite Forall_forall in B1, B2.
  rewrite Hids1 in Ha. rewrite Hids2 in Hb.
  apply B1 in Ha. apply B2 in Hb. lia.
Qed.

(** X3.  A successful add appends to the index, in the order of the
    input, one row per text: the row encoded for the [j]-th text under
    the [j]-th returned id.  The rows that were there stay in front,
    untouched. *)
Theorem add_appends_rows :
  forall texts metas w ids w' embs,
    add_embeddings texts metas w = (VectorIds ids, w') ->
    encode texts = Ok embs ->
    length ids = length embs /\
    id_map (eng w') = id_map (eng w) ++ combine ids embs /\
    forall j v,
      nth_error embs j = Some v ->
      nth_error (id_map (eng w')) (length (id_map (eng w)) + j)
      = Some (next_id (eng w) + Z.of_nat j, v).
Proof.
  intros texts metas w ids w' embs Hadd Henc.
  destruct (add_success_inv _ _ _ _ _ Hadd)
    as [embs' [m' [Henc' [Hrows [Hids [_ Heng]]]]]].
  assert (embs' = embs) by congruence. subst embs'.
  assert (Hlen : length ids = length embs)
    by (rewrite Hids, consecutive_length; now symmetry).
  rewrite Heng. simpl. repeat split; [exact Hlen|].
  intros j v Hnth.
  rewrite nth_error_app2 by lia.
  replace (length (id_map (eng w)) + j - length (id_map (eng w)))%nat
    with j by lia.
  rewrite Hids, <- Hrows. clear -Hnth.
  revert j Hnth. generalize (next_id (eng w)) as n.
  induction embs as [|e embs IH]; intros n j Hnth.
  - destruct j; discriminate.
  - destruct j as [|j]; simpl in *.
    + injection Hnth as <-. now rewrite Z.add_0_r.
    + rewrite (IH (n + 1) j Hnth). f_equal. f_equal. lia.
Qed.
End AddSuccess.

Lemma add_success_shape_witness :
  let w' := snd (add_embeddings ["A"; "BB"] ["m0"; "m1"] Tiny.after_add) in
  add_embeddings ["A"; "BB"] ["m0"; "m1"] Tiny.after_add
  = (VectorIds [1; 2], w') /\
  index_ids (eng w') = index_ids (eng Tiny.after_add) ++ [1; 2].
Proof.
  intros w'.
  assert (Heq : add_embeddings ["A"; "BB"] ["m0"; "m1"] Tiny.after_add
                = (VectorIds [1; 2], w')) by reflexivity.
  split; [exact Heq|].
  exact (proj1 (proj2 (proj2 (proj2
    (add_success_shape _ _ _ _ _ Heq))))).
Defined.

Lemma ids_never_reused_witness :
  let w1 := snd (add_embeddings ["A"; "BB"] ["m0"; "m1"] Tiny.fresh) in
  let w2 := snd (add_embeddings ["C"] ["m2"] (run_all [Remove [0; 1]] w1)) in
  add_embeddings ["A"; "BB"] ["m0"; "m1"] Tiny.fresh = (VectorIds [0; 1], w1) /\
  add_embeddings ["C"] ["m2"] (run_all [Remove [0; 1]] w1)
  = (VectorIds [2], w2) /\
  1 < 2.
Proof.
  intros w1 w2.
  assert (H1 : add_embeddings ["A"; "BB"] ["m0"; "m1"] Tiny.fresh
               = (VectorIds [0; 1], w1)) by reflexivity.
  assert (H2 : add_embeddings ["C"] ["m2"] (run_all [Remove [0; 1]] w1)
               = (VectorIds [2], w2)) by reflexivity.
  split; [exact H1|]. split; [exact H2|].
  apply (ids_never_reused _ _ _ _ _ _ _ _ _ _ H1 H2); simpl; auto.
Defined.

Lemma add_appends_rows_witness :
  let w' := snd (add_embeddings ["A"; "BB"] ["m0"; "m1"] Tiny.after_add) in
  nth_error (id_map (eng w')) 2 = Some (2, Tiny.embed "BB").
Proof.
  intros w'.
  assert (Heq : add_embeddings ["A"; "BB"] ["m0"; "m1"] Tiny.after_add
                = (VectorIds [1; 2], w')) by reflexivity.
  assert (Henc : encode ["A"; "BB"] = Ok [Tiny.embed "A"; Tiny.embed "BB"])
    by reflexivity.
  exact (proj2 (proj2 (add_appends_rows _ _ _ _ _ _ Heq Henc))
           1%nat (Tiny.embed "BB") eq_refl).
Defined.

(** ** What a successful [remove_embeddings] does *)

Section RemoveSuccess.
Context {embedding document : Type}.
Context `{E : Embedder embedding} `{M : L2 embedding}.
Implicit Types (m : Dict.t document) (w : @world embedding document)
  (i : @index embedding).

Lemma get_del_other m k id :
  k <> id -> Dict.get (Dict.del m k) id = Dict.get m id.
Proof.
  intros Hne. unfold Dict.del.
  induction m as [|[k' v'] m IH]; simpl; [reflexivity|].
  destruct (k' =? k) eqn:Hk; simpl.
  - apply Z.eqb_eq in Hk. subst k'.
    destruct (k =? id) eqn:Hid; [apply Z.eqb_eq in Hid; contradiction | exact IH].
  - destruct (k' =? id); [reflexivity | exact IH].
Qed.

(** The deletion loop leaves every id it was not given as it was. *)
Lemma delete_all_get vector_ids :
  forall m id,
    ~ In id vector_ids ->
    Dict.get (delete_all vector_ids m) id = Dict.get m id.
Proof.
  induction vector_ids as [|v rest IH]; simpl; intros m id Hnot; [reflexivity|].
  rewrite delete_step, IH by auto. apply get_del_other. auto.
Qed.

Lemma delete_all_absent vector_ids :
  forall m,
    (forall id, In id vector_ids -> ~ In id (Dict.keys m)) ->
    delete_all vector_ids m = m.
Proof.
  induction vector_ids as [|v rest IH]; simpl; intros m Habs; [reflexivity|].
  rewrite delete_step, del_absent by auto. apply IH. auto.
Qed.

(** The two ways a removal ends. *)
Lemma remove_unfold vector_ids w :
  remove_embeddings vector_ids w
  = match Dict.keys (delete_all vector_ids (metadata (eng w))) with
    | [] =>
        (Success,
         save_index
           (with_engine
              {| id_map := empty_index;
                 metadata := delete_all vector_ids (metadata (eng w));
                 next_id := next_id (eng w) |} w))
    | _ :: _ =>
        (Error "reconstruct not implemented for this type of index",
         write_log
           (ErrorRemoving "reconstruct not implemented for this type of index")
           (with_engine
              {| id_map := id_map (eng w);
                 metadata := delete_all vector_ids (metadata (eng w));
                 next_id := next_id (eng w) |} w))
    end.
Proof.
  unfold remove_embeddings.
  destruct (Dict.keys (delete_all vector_ids (metadata (eng w))));
    reflexivity.
Qed.

(** X4.  A removal deletes the named ids from the metadata mapping and
    leaves every other id with its document and [next_id] as it was.
    It succeeds only when no id is left in the mapping: the index is
    then replaced by an empty one and the store saved once.  When an id
    is left, the first reconstruction raises: the call returns the
    error, the index and the disk are untouched and nothing is saved. *)
Theorem remove_outcome :
  forall vector_ids w,
    let m' := delete_all vector_ids (metadata (eng w)) in
    let r := fst (remove_embeddings vector_ids w) in
    let w' := snd (remove_embeddings vector_ids w) in
    metadata (eng w') = m' /\
    next_id (eng w') = next_id (eng w) /\
    (forall id, In id vector_ids -> Dict.mem (metadata (eng w')) id = false) /\
    (forall id, ~ In id vector_ids ->
                Dict.get (metadata (eng w')) id = Dict.get (metadata (eng w)) id) /\
    (Dict.keys m' = [] ->
     r = Success /\ id_map (eng w') = [] /\
     save_calls (log w') = S (save_calls (log w))) /\
    (Dict.keys m' <> [] ->
     (exists msg, r = Error msg) /\
     id_map (eng w') = id_map (eng w) /\
     fs w' = fs w /\
     save_calls (log w') = save_calls (log w)).
Proof.
  intros vector_ids w m' r w'. unfold r, w'. rewrite remove_unfold. fold m'.
  assert (Hgone : forall id, In id vector_ids -> Dict.mem m' id = false).
  { intros id Hid. apply mem_false_keys. now apply delete_all_removes. }
  assert (Hkept : forall id, ~ In id vector_ids ->
                             Dict.get m' id = Dict.get (metadata (eng w)) id).
  { intros id Hid. now apply delete_all_get. }
  destruct (Dict.keys m') as [|key keys] eqn:Hkeys; simpl.
  - rewrite save_index_eng, save_index_calls. simpl.
    split; [reflexivity|]. split; [reflexivity|].
    split; [exact Hgone|]. split; [exact Hkept|].
    split; [intros _; repeat split; reflexivity | intros Hne; contradiction].
  - split; [reflexivity|]. split; [reflexivity|].
    split; [exact Hgone|]. split; [exact Hkept|].
    split; [intros Hnone; discriminate | intros _; repeat split; eauto].
Qed.

(** X5.  A removal that names only ids the metadata mapping does not
    hold changes neither the mapping nor [next_id].  On a store with at
    least one metadata entry it is not reported as a success: it
    returns the reconstruction error, with the engine and the disk as
    they were.  On a store without metadata it succeeds and leaves the
    index empty. *)
Theorem remove_unknown_ids :
  forall vector_ids w,
    (forall id, In id vector_ids -> ~ In id (Dict.keys (metadata (eng w)))) ->
    let r := fst (remove_embeddings vector_ids w) in
    let w' := snd (remove_embeddings vector_ids w) in
    metadata (eng w') = metadata (eng w) /\
    next_id (eng w') = next_id (eng w) /\
    (Dict.keys (metadata (eng w)) <> [] ->
     (exists msg, r = Error msg) /\ eng w' = eng w /\ fs w' = fs w) /\
    (Dict.keys (metadata (eng w)) = [] ->
     r = Success /\ id_map (eng w') = []).
Proof.
  intros vector_ids w Habs r w'. unfold r, w'. rewrite remove_unfold.
  rewrite (delete_all_absent _ _ Habs).
  destruct (Dict.keys (metadata (eng w))) as [|key keys] eqn:Hkeys; simpl.
  - rewrite save_index_eng. simpl.
    split; [reflexivity|]. split; [reflexivity|].
    split; [intros Hne; contradiction | intros _; split; reflexivity].
  - split; [reflexivity|]. split; [reflexivity|].
    split; [|intros Hnone; discriminate].
    intros _. split; [eauto|]. split; [|reflexivity].
    destruct (eng w); reflexivity.
Qed.

(** X6.  Removal is idempotent on the engine: repeating a removal gives
    the result of the first call again, success or error, and changes
    nothing in the index, the metadata mapping or [next_id]. *)
Theorem remove_idempotent :
  forall vector_ids w,
    let w1 := snd (remove_embeddings vector_ids w) in
    fst (remove_embeddings vector_ids w1)
    = fst (remove_embeddings vector_ids w) /\
    eng (snd (remove_embeddings vector_ids w1)) = eng w1.
Proof.
  intros vector_ids w w1. unfold w1.
  rewrite (remove_unfold vector_ids w).
  set (m' := delete_all vector_ids (metadata (eng w))).
  assert (Hagain : delete_all vector_ids m' = m').
  { apply delete_all_absent. intros id Hid. now apply delete_all_removes. }
  destruct (Dict.keys m') as [|key keys] eqn:Hkeys; simpl;
    rewrite remove_unfold.
  - rewrite save_index_eng. simpl. rewrite Hagain, Hkeys. simpl.
    rewrite save_index_eng. simpl. split; reflexivity.
  - simpl. rewrite Hagain, Hkeys. simpl. split; reflexivity.
Qed.
End RemoveSuccess.

Lemma remove_outcome_witness :
  let w := snd (add_embeddings ["A"; "BB"; "CCC"] ["m0"; "m1"; "m2"] Tiny.fresh) in
  let w' := snd (remove_embeddings [1] w) in
  Dict.keys (delete_all [1] (metadata (eng w))) <> [] /\
  id_map (eng w') = id_map (eng w) /\
  Dict.keys (metadata (eng w')) = [0; 2].
Proof.
  intros w w'.
  assert (Hleft : Dict.keys (delete_all [1] (metadata (eng w))) <> [])
    by (simpl; discriminate).
  split; [exact Hleft|].
  destruct (remove_outcome [1] w) as [Hmeta [_ [_ [_ [_ Hfail]]]]].
  split; [exact (proj1 (proj2 (Hfail Hleft)))|].
  fold w'. unfold w'. rewrite Hmeta. reflexivity.
Defined.

Lemma remove_unknown_ids_witness :
  (forall id, In id [999] ->
              ~ In id (Dict.keys (metadata (eng Tiny.after_add)))) /\
  eng (snd (remove_embeddings [999] Tiny.after_add)) = eng Tiny.after_add.
Proof.
  assert (Habs : forall id, In id [999] ->
                   ~ In id (Dict.keys (metadata (eng Tiny.after_add)))).
  { simpl. intros id [<-|[]] [H|[]]. discriminate. }
  split; [exact Habs|].
  apply (proj1 (proj2 (proj2 (remove_unknown_ids [999] Tiny.after_add Habs)))).
  simpl. discriminate.
Defined.

(** ** What reaches the disk *)

Section Durability.
Context {embedding document : Type}.
Context `{E : Embedder embedding} `{M : L2 embedding}.
Implicit Types (m : Dict.t document) (w : @world embedding document)
  (e : @engine embedding document).

Lemma save_index_reloads w :
  index_writable (fs w) = true ->
  metadata_writable (fs w) = true ->
  eng (VectorEngine (fs (save_index w))) = eng (save_index w).
Proof.
  intros Hi Hm. rewrite save_index_eng. now apply save_then_load_eng.
Qed.

(** X7.  Removal always flushes: after a successful removal on a
    writable cache directory, a store constructed from the artifacts is
    the store as the removal left it. *)
Theorem remove_is_persisted :
  forall vector_ids w,
    index_writable (fs w) = true ->
    metadata_writable (fs w) = true ->
    fst (remove_embeddings vector_ids w) = Success ->
    eng (VectorEngine (fs (snd (remove_embeddings vector_ids w))))
    = eng (snd (remove_embeddings vector_ids w)).
Proof.
  intros vector_ids w Hi Hm. unfold remove_embeddings.
  destruct (rebuild _ _) as [i'|msg]; simpl; [|discriminate].
  intros _. now apply save_index_reloads.
Qed.

(** X8.  A successful add touches the disk only at a checkpoint: when
    the size of the metadata mapping after it is not a multiple of 100
    the artifacts are left as they were, so the new records exist in
    memory only; when it is, and the cache directory is writable, a
    store constructed from the artifacts is the store after the add. *)
Theorem add_checkpoint :
  forall texts metas w ids w',
    add_embeddings texts metas w = (VectorIds ids, w') ->
    (Dict.len (metadata (eng w')) mod 100 <> 0 -> fs w' = fs w) /\
    (Dict.len (metadata (eng w')) mod 100 = 0 ->
     index_writable (fs w) = true ->
     metadata_writable (fs w) = true ->
     eng (VectorEngine (fs w')) = eng w').
Proof.
  intros texts metas w ids w'. unfold add_embeddings.
  destruct (encode texts) as [embs|msg]; [|discriminate].
  destruct (assign_ids metas (metadata (eng w)) (next_id (eng w)))
    as [[ids0 m'] n'].
  destruct (add_with_ids (id_map (eng w)) embs ids0) as [i'|msg];
    [|discriminate].
  intros Heq. injection Heq as _ <-.
  destruct (Dict.len m' mod 100 =? 0) eqn:Hmod.
  - apply Z.eqb_eq in Hmod. rewrite save_index_eng. simpl. split.
    + intros Hne. contradiction.
    + intros _ Hi Hm.
      apply (save_then_load_eng
               (with_engine {| id_map := i'; metadata := m'; next_id := n' |} w));
        assumption.
  - apply Z.eqb_neq in Hmod. simpl. split.
    + reflexivity.
    + intros H0. contradiction.
Qed.

(** X9.  A save that writes [faiss.index] and then fails on
    [metadata.pkl] leaves the engine in memory as it was and logs the
    failure.  On disk the new index then lies beside the metadata file
    as it was, when that file could not be opened, or beside an emptied
    file, when it was opened and the write failed.  A store constructed
    from these artifacts has the vectors of the store that saved: in
    the first case with the metadata mapping and [next_id] of the
    earlier save, in the second with no metadata and [next_id = 0]. *)
Theorem partial_save_mixes_generations :
  forall w m0 n0,
    index_writable (fs w) = true ->
    metadata_writable (fs w) = false ->
    metadata_file (fs w)
    = Holds {| pk_metadata := Some m0; pk_next_id := Some n0 |} ->
    eng (save_index w) = eng w /\
    log (save_index w) = FailedSave :: log w /\
    eng (VectorEngine (fs (save_index w)))
    = if metadata_truncated_on_failure (fs w)
      then {| id_map := id_map (eng w); metadata := Dict.empty;
              next_id := 0 |}
      else {| id_map := id_map (eng w); metadata := m0; next_id := n0 |}.
Proof.
  intros w m0 n0 Hi Hm Hfile. split; [apply save_index_eng|].
  unfold save_index. rewrite Hi, Hm. split; [reflexivity|].
  unfold VectorEngine, load_index. simpl. rewrite Hfile.
  destruct (metadata_truncated_on_failure (fs w)); reflexivity.
Qed.
End Durability.

Lemma remove_is_persisted_witness :
  eng (VectorEngine (fs (snd (remove_embeddings [0] Tiny.after_add))))
  = eng (snd (remove_embeddings [0] Tiny.after_add)).
Proof.
  exact (remove_is_persisted [0] Tiny.after_add eq_refl eq_refl eq_refl).
Defined.

Lemma add_checkpoint_witness :
  let w' := snd (add_embeddings ["A"] ["m0"] Tiny.fresh) in
  add_embeddings ["A"] ["m0"] Tiny.fresh = (VectorIds [0], w') /\
  Dict.len (metadata (eng w')) mod 100 <> 0 /\
  fs w' = fs Tiny.fresh.
Proof.
  intros w'.
  assert (Heq : add_embeddings ["A"] ["m0"] Tiny.fresh = (VectorIds [0], w'))
    by reflexivity.
  assert (Hmod : Dict.len (metadata (eng w')) mod 100 <> 0)
    by (vm_compute; discriminate).
  split; [exact Heq|]. split; [exact Hmod|].
  exact (proj1 (add_checkpoint _ _ _ _ _ Heq) Hmod).
Defined.

Lemma partial_save_mixes_generations_witness :
  let w := {| eng := eng Tiny.after_add;
              fs := {| index_file := Holds [];
                       metadata_file :=
                         Holds {| pk_metadata := Some [];
                                  pk_next_id := Some 0 |};
                       index_writable := true;
                       metadata_writable := false;
                       index_truncated_on_failure := false;
                       metadata_truncated_on_failure := true |};
              log := [] |} in
  get_stats (VectorEngine (fs (save_index w))) = Stats 1 1 0.
Proof.
  intros w.
  pose proof (proj2 (proj2
    (partial_save_mixes_generations w [] 0 eq_refl eq_refl eq_refl))) as H.
  unfold get_stats. rewrite H. reflexivity.
Defined.

(** ** More on [search] *)

Section SearchMore.
Context {embedding document : Type}.
Context `{E : Embedder embedding} `{M : L2 embedding}.
Implicit Types (m : Dict.t document) (w : @world embedding document)
  (i : @index embedding) (c : candidate) (l cands : list candidate).

(** X10.  [search] never changes the store: whatever the query and
    [k], and whether or not it fails inside, the engine and the disk are
    as before and nothing is saved; at most one error is logged. *)
Theorem search_is_read_only :
  forall query k w,
    let w' := snd (search query k w) in
    eng w' = eng w /\
    fs w' = fs w /\
    save_calls (log w') = save_calls (log w) /\
    (log w' = log w \/ exists msg, log w' = ErrorSearching msg :: log w).
Proof.
  intros query k w. unfold search.
  destruct (ntotal (id_map (eng w)) =? 0); [simpl; auto|].
  destruct (encode [query]) as [[|qv qs]|msg]; simpl; eauto 6.
  destruct (index_search _ _ _); simpl; eauto 6.
Qed.

Lemma collect_in m cands (h : @hit document) :
  In h (collect m cands) -> exists c, In c cands /\ to_hit m c = Some h.
Proof.
  induction cands as [|c rest IH]; simpl; [intros []|].
  destruct (to_hit m c) as [h0|] eqn:Hc.
  - intros [<-|Hin]; [eauto|].
    destruct (IH Hin) as [c' [Hc' Hh]]. eauto.
  - intros Hin. destruct (IH Hin) as [c' [Hc' Hh]]. eauto.
Qed.

(** Every reported distance is the distance from a query row to a
    stored row. *)
Lemma reported_distance query k w c :
  In c (reported query k w) ->
  exists qv p, In p (id_map (eng w)) /\ fst c = fst p /\
               snd c = l2sqr qv (snd p).
Proof.
  unfold reported, index_search.
  destruct (ntotal (id_map (eng w)) =? 0); [intros []|].
  destruct (encode [query]) as [[|qv qs]|msg]; try (intros []).
  destruct (Z.min k (ntotal (id_map (eng w))) <=? 0); [intros []|].
  intros Hin. apply firstn_In in Hin. apply -> sort_candidates_in in Hin.
  unfold distances in Hin. apply in_map_iff in Hin.
  destruct Hin as [p [Hp Hin]]. exists qv, p. subst c. auto.
Qed.

Lemma relevance_bounds (d : Q) :
  (0 <= d)%Q -> (0 < 1 / (1 + d))%Q /\ (1 / (1 + d) <= 1)%Q.
Proof.
  intros Hd. split.
  - apply Qlt_shift_div_l; lra.
  - apply Qle_shift_div_r; lra.
Qed.

Lemma relevance_antitone (a b : Q) :
  (0 <= a)%Q -> (a <= b)%Q -> (1 / (1 + b) <= 1 / (1 + a))%Q.
Proof.
  intros Ha Hab.
  apply Qle_shift_div_r; [lra|].
  assert (Hpos : (0 < 1 + a)%Q) by lra.
  assert (Heq : (1 / (1 + a) * (1 + b) == (1 + b) / (1 + a))%Q)
    by (field; lra).
  rewrite Heq. apply Qle_shift_div_l; lra.
Qed.

(** X11.  With a distance that is never negative, every hit of every
    search carries a distance that is not negative and the relevance
    [1 / (1 + distance)], which lies in (0, 1]. *)
Theorem relevance_in_unit_interval :
  (forall x y : embedding, (0 <= l2sqr x y)%Q) ->
  forall query k w h,
    In h (fst (search query k w)) ->
    relevance h = (1 / (1 + distance h))%Q /\
    (0 <= distance h)%Q /\
    (0 < relevance h)%Q /\ (relevance h <= 1)%Q.
Proof.
  intros Hmetric query k w h Hin.
  rewrite search_reported in Hin. apply collect_in in Hin.
  destruct Hin as [c [Hc Hh]].
  apply to_hit_fields in Hh. destruct Hh as [_ [Hd Hr]].
  apply reported_distance in Hc. destruct Hc as [qv [p [_ [_ Hsnd]]]].
  assert (Hnn : (0 <= distance h)%Q) by (rewrite Hd, Hsnd; apply Hmetric).
  rewrite Hr, <- Hd.
  destruct (relevance_bounds _ Hnn). auto.
Qed.

(** *** Order without any assumption on the ids *)

Lemma insert_candidate_by_distance c l :
  StronglySorted (fun a b : candidate => (snd a <= snd b)%Q) l ->
  StronglySorted (fun a b : candidate => (snd a <= snd b)%Q)
    (insert_candidate c l).
Proof.
  induction l as [|c' l IH]; intros Hs; simpl.
  - repeat constructor.
  - inversion Hs as [|? ? Hs' Hall]; subst.
    destruct (Qle_bool (snd c) (snd c')) eqn:Hle.
    + apply Qle_bool_iff in Hle. constructor; [exact Hs|].
      constructor; [exact Hle|].
      rewrite Forall_forall in *. intros y Hy.
      eapply Qle_trans; [exact Hle | now apply Hall].
    + constructor; [now apply IH|].
      rewrite Forall_forall in *. intros y Hy.
      apply insert_candidate_in in Hy. destruct Hy as [->|Hy]; [|now apply Hall].
      apply Qlt_le_weak, Qnot_le_lt. intros H.
      apply Qle_bool_iff in H. congruence.
Qed.

Lemma sort_candidates_by_distance l :
  StronglySorted (fun a b : candidate => (snd a <= snd b)%Q)
    (sort_candidates l).
Proof.
  induction l as [|c l IH]; simpl; [constructor|].
  now apply insert_candidate_by_distance.
Qed.

Lemma reported_by_distance query k w :
  StronglySorted (fun a b : candidate => (snd a <= snd b)%Q)
    (reported query k w).
Proof.
  unfold reported, index_search.
  destruct (ntotal (id_map (eng w)) =? 0); [constructor|].
  destruct (encode [query]) as [[|qv qs]|msg]; try constructor.
  destruct (Z.min k (ntotal (id_map (eng w))) <=? 0); [constructor|].
  apply StronglySorted_firstn, sort_candidates_by_distance.
Qed.

Lemma Forall2_sorted {A B : Type} (R : A -> A -> Prop) (S : B -> B -> Prop)
  (P : A -> B -> Prop) :
  (forall a a' b b', P a b -> P a' b' -> R a a' -> S b b') ->
  forall la lb,
    Forall2 P la lb -> StronglySorted R la -> StronglySorted S lb.
Proof.
  intros Hstep la lb H2.
  induction H2 as [|a b la lb Hab H2 IH]; intros Hs; [constructor|].
  inversion Hs as [|? ? Hs' Hall]; subst.
  constructor; [now apply IH|].
  clear IH Hs Hs'. induction H2 as [|a' b' la lb Hab' H2 IH]; [constructor|].
  inversion Hall; subst. constructor; [eapply Hstep; eauto | now apply IH].
Qed.

(** X12.  On every store the hits of a search come in non-decreasing
    distance; with a distance that is never negative they come in
    non-increasing relevance. *)
Theorem hits_by_relevance :
  forall query k w,
    StronglySorted (fun a b : @hit document => (distance a <= distance b)%Q)
      (fst (search query k w)) /\
    ((forall x y : embedding, (0 <= l2sqr x y)%Q) ->
     StronglySorted (fun a b : @hit document => (relevance b <= relevance a)%Q)
       (fst (search query k w))).
Proof.
  intros query k w.
  pose proof (collect_kept (metadata (eng w)) (reported query k w)) as H2.
  rewrite <- search_reported in H2.
  assert (Hs : StronglySorted (fun a b : candidate => (snd a <= snd b)%Q)
                 (filter (kept (metadata (eng w))) (reported query k w)))
    by apply StronglySorted_filter, reported_by_distance.
  split.
  - eapply Forall2_sorted; [|exact H2 | exact Hs].
    intros a a' b b' Hb Hb' Hle.
    apply to_hit_fields in Hb, Hb'.
    destruct Hb as [_ [-> _]]. destruct Hb' as [_ [-> _]]. exact Hle.
  - intros Hmetric.
    assert (Hs' : StronglySorted
                    (fun a b : candidate =>
                       (0 <= snd a)%Q /\ (snd a <= snd b)%Q)
                    (filter (kept (metadata (eng w))) (reported query k w))).
    { assert (Hnn : Forall (fun c : candidate => (0 <= snd c)%Q)
                      (filter (kept (metadata (eng w))) (reported query k w))).
      { apply Forall_filter. rewrite Forall_forall. intros c Hc.
        apply reported_distance in Hc.
        destruct Hc as [qv [p [_ [_ ->]]]]. apply Hmetric. }
      clear H2. induction Hs as [|c l Hsl IH Hall]; [constructor|].
      inversion Hnn as [|? ? Hc Hnn']; subst.
      constructor; [now apply IH|].
      eapply Forall_impl; [|exact Hall]. simpl. auto. }
    eapply Forall2_sorted; [|exact H2 | exact Hs'].
    intros a a' b b' Hb Hb' [Hnn Hle].
    apply to_hit_fields in Hb, Hb'.
    destruct Hb as [_ [_ ->]]. destruct Hb' as [_ [_ ->]].
    now apply relevance_antitone.
Qed.

(** X13.  With the query encoded, [k] positive and every id of the
    index a key of the metadata mapping other than -1, a search returns
    exactly [min(k, total_vectors)] hits. *)
Theorem search_returns_min_k_total :
  forall query k w qv,
    0 < k ->
    encode [query] = Ok [qv] ->
    Forall (fun id => id <> -1 /\ In id (Dict.keys (metadata (eng w))))
      (index_ids (eng w)) ->
    Z.of_nat (length (fst (search query k w)))
    = Z.min k (ntotal (id_map (eng w))).
Proof.
  intros query k w qv Hk Henc Hall.
  rewrite search_reported, collect_length.
  rewrite filter_length_all.
  - unfold reported.
    destruct (ntotal (id_map (eng w)) =? 0) eqn:Hn.
    + apply Z.eqb_eq in Hn. rewrite Hn. simpl. lia.
    + apply Z.eqb_neq in Hn. rewrite Henc.
      assert (Hpos : 0 < ntotal (id_map (eng w))) by (unfold ntotal in *; lia).
      destruct (index_search_positive (id_map (eng w)) qv
                  (Z.min k (ntotal (id_map (eng w)))))
        as [cands [Hs [Hl _]]]; [lia|].
      now rewrite Hs.
  - rewrite Forall_forall. intros c Hc. apply kept_spec.
    rewrite Forall_forall in Hall. apply Hall.
    apply reported_ids with (query := query) (k := k). now apply in_map.
Qed.
End SearchMore.

Lemma tiny_metric_nonneg : forall x y : Q, (0 <= l2sqr x y)%Q.
Proof.
  intros x y. unfold l2sqr, Tiny.metric.
  destruct (Qlt_le_dec (x - y) 0) as [Hneg|Hpos].
  - setoid_replace ((x - y) * (x - y))%Q with ((y - x) * (y - x))%Q by ring.
    apply Qmult_le_0_compat; lra.
  - now apply Qmult_le_0_compat.
Qed.

Lemma relevance_in_unit_interval_witness :
  let w := snd (add_embeddings ["A"; "BBBBB"] ["a"; "b"] Tiny.fresh) in
  Forall (fun h => (0 < relevance h)%Q /\ (relevance h <= 1)%Q)
    (fst (search "abc" 2 w)).
Proof.
  intros w. rewrite Forall_forall. intros h Hin.
  exact (proj2 (proj2
    (relevance_in_unit_interval tiny_metric_nonneg "abc" 2 w h Hin))).
Defined.

Lemma hits_by_relevance_witness :
  let w := snd (add_embeddings ["A"; "BBBBB"] ["a"; "b"] Tiny.fresh) in
  StronglySorted (fun a b : @hit string => (relevance b <= relevance a)%Q)
    (fst (search "abc" 2 w)).
Proof.
  intros w.
  exact (proj2 (hits_by_relevance "abc" 2 w) tiny_metric_nonneg).
Defined.

Lemma search_returns_min_k_total_witness :
  let w := snd (add_embeddings ["A"; "BBBBB"; "CC"] ["a"; "b"; "c"] Tiny.fresh) in
  Z.of_nat (length (fst (search "abc" 2 w))) = Z.min 2 (ntotal (id_map (eng w))).
Proof.
  intros w.
  apply (search_returns_min_k_total "abc" 2 w (Tiny.embed "abc")).
  - reflexivity.
  - reflexivity.
  - repeat constructor; simpl; auto; discriminate.
Defined.

(** ** The order of the hits, and of their ids among equal distances *)

Section OrderClaims.
Context {embedding document : Type}.
Context `{E : Embedder embedding} `{M : L2 embedding}.
Implicit Types (w : @world embedding document).

End OrderClaims.



(** ** The dispatcher and the loop of [main] *)

Section ProtocolFacts.
Context {embedding document json : Type}.
Context `{E : Embedder embedding} `{M : L2 embedding}.
Implicit Types (w : @world embedding document)
  (req : @request document json)
  (lines : list (@parsed_line document json)).

Lemma process_request_shape req w :
  exists r,
    fst (process_request req w)
    = {| requestId := req_requestId req;
         result_field := Some r;
         error_field := None |}.
Proof.
  unfold process_request, process_request_with, engine_handlers. simpl.
  destruct (action_is (req_action req) "add").
  { destruct (add_embeddings _ _ w). simpl. eauto. }
  destruct (action_is (req_action req) "search").
  { destruct (search _ _ w). simpl. eauto. }
  destruct (action_is (req_action req) "remove").
  { destruct (remove_embeddings _ w). simpl. eauto. }
  destruct (action_is (req_action req) "stats"); simpl; eauto.
Qed.

(** X14.  With the methods of the class itself, [process_request]
    answers every request with the request id it was given and a
    [result], never with a top-level [error]: each method catches what
    is raised inside it. *)
Theorem process_request_answers :
  forall req w,
    exists r,
      fst (process_request req w)
      = {| requestId := req_requestId req;
           result_field := Some r;
           error_field := None |}.
Proof. intros req w. apply process_request_shape. Qed.

Lemma process_request_world req w :
  snd (process_request req w) = run (operation_of req) w.
Proof.
  unfold process_request, process_request_with, engine_handlers, operation_of.
  simpl.
  destruct (action_is (req_action req) "add").
  { unfold run. destruct (add_embeddings _ _ w). reflexivity. }
  destruct (action_is (req_action req) "search").
  { unfold run. destruct (search _ _ w). reflexivity. }
  destruct (action_is (req_action req) "remove").
  { unfold run. destruct (remove_embeddings _ w). reflexivity. }
  destruct (action_is (req_action req) "stats"); reflexivity.
Qed.

(** X15.  The dispatcher changes the world only through the method the
    action selects, called with the defaults for absent fields; a
    request whose action is neither [add] nor [remove] leaves the engine
    and the disk as they were. *)
Theorem process_request_effect :
  forall req w,
    snd (process_request req w) = run (operation_of req) w /\
    (req_action req <> Some "add" ->
     req_action req <> Some "remove" ->
     eng (snd (process_request req w)) = eng w /\
     fs (snd (process_request req w)) = fs w).
Proof.
  intros req w. split; [apply process_request_world|].
  intros Ha Hr. rewrite process_request_world. unfold operation_of.
  rewrite (action_is_false _ _ Ha).
  destruct (action_is (req_action req) "search"); simpl.
  - split; [apply search_eng | apply search_fs].
  - rewrite (action_is_false _ _ Hr). simpl. auto.
Qed.

(** X16.  A failure of the encoder stays inside the request: an [add]
    request is answered with the result [{"error": <message>}], a
    [search] request on a store with vectors with the empty list, and
    in both cases the engine and the disk are as before. *)
Theorem encoder_failure_contained :
  forall req w msg,
    (req_action req = Some "add" ->
     encode (get_or (req_texts req) []) = Raise msg ->
     fst (process_request req w)
     = {| requestId := req_requestId req;
          result_field := Some (Error msg);
          error_field := None |} /\
     eng (snd (process_request req w)) = eng w /\
     fs (snd (process_request req w)) = fs w) /\
    (req_action req = Some "search" ->
     encode [get_or (req_query req) ""] = Raise msg ->
     fst (process_request req w)
     = {| requestId := req_requestId req;
          result_field := Some (Hits []);
          error_field := None |} /\
     eng (snd (process_request req w)) = eng w /\
     fs (snd (process_request req w)) = fs w).
Proof.
  intros req w msg. split; intros Ha Henc.
  - unfold process_request, process_request_with, engine_handlers.
    rewrite Ha. simpl. unfold add_embeddings. rewrite Henc. simpl. auto.
  - unfold process_request, process_request_with, engine_handlers.
    rewrite Ha. simpl. unfold search. rewrite Henc.
    destruct (ntotal (id_map (eng w)) =? 0); simpl; auto.
Qed.

Lemma main_loop_spec lines :
  forall w,
    let '(out, errs, w') := main_loop lines w in
    map (@requestId document json) out
    = map (@req_requestId document json) (requests lines) /\
    Forall (fun r => error_field r = None /\ result_field r <> None) out /\
    (length out + length errs = length lines)%nat /\
    length out = length (requests lines) /\
    w' = run_all (map operation_of (requests lines)) w.
Proof.
  induction lines as [|line rest IH]; intros w.
  - simpl. repeat split; constructor.
  - destruct line as [msg|msg|req]; simpl.
    + specialize (IH w). destruct (main_loop rest w) as [[out errs] w'].
      destruct IH as [Hids [Hres [Hlen [Hreq Hw]]]].
      repeat split; try assumption. simpl. lia.
    + specialize (IH w). destruct (main_loop rest w) as [[out errs] w'].
      destruct IH as [Hids [Hres [Hlen [Hreq Hw]]]].
      repeat split; try assumption. simpl. lia.
    + pose proof (process_request_world req w) as Hworld.
      destruct (process_request_shape req w) as [r0 Hr0].
      destruct (process_request req w) as [r w1]. simpl in Hworld, Hr0.
      specialize (IH w1). destruct (main_loop rest w1) as [[out errs] w'].
      destruct IH as [Hids [Hres [Hlen [Hreq Hw]]]].
      subst r w1. simpl. repeat split.
      * now rewrite Hids.
      * constructor; [simpl; split; [reflexivity | discriminate] | exact Hres].
      * lia.
      * lia.
      * exact Hw.
Qed.

(** X17.  [main] prints the ready line with the dimension of the
    encoder and then one response for each line that parses to an
    object, in the order of the input and with its request id; each
    response has a [result] and no top-level [error].  Every other line
    is logged once and answered with nothing, and the store at the end
    is the store after the calls the requests amount to. *)
Theorem main_answers_each_request :
  forall (d : @disk embedding document) lines,
    let '(outs, errs, w') := main d lines in
    exists out,
      outs = Ready dimension :: map Response out /\
      map (@requestId document json) out
      = map (@req_requestId document json) (requests lines) /\
      Forall (fun r => error_field r = None /\ result_field r <> None) out /\
      (length out + length errs = length lines)%nat /\
      w' = run_all (map operation_of (requests lines)) (VectorEngine d).
Proof.
  intros d lines. unfold main.
  pose proof (main_loop_spec lines (VectorEngine d)) as Hspec.
  destruct (main_loop lines (VectorEngine d)) as [[out errs] w'].
  destruct Hspec as [Hids [Hres [Hlen [_ Hw]]]].
  exists out. auto.
Qed.

(** X18.  Over the protocol too the counts agree: when the store that
    [main] starts with has its two mappings in agreement, every [add]
    request carries as many texts as documents and every [remove]
    request leaves the metadata mapping empty or as it was, whatever
    else the input holds, the store at the end has as many vectors as
    metadata entries. *)
Theorem main_keeps_counts :
  forall (d : @disk embedding document) lines,
    consistent (eng (VectorEngine d)) ->
    agreeable_run (map operation_of (requests lines)) (VectorEngine d) ->
    let w' := snd (main d lines) in
    consistent (eng w') /\
    ntotal (id_map (eng w')) = Dict.len (metadata (eng w')).
Proof.
  intros d lines Hc Hb. unfold main.
  pose proof (main_loop_spec lines (VectorEngine d)) as Hspec.
  destruct (main_loop lines (VectorEngine d)) as [[out errs] w'].
  destruct Hspec as [_ [_ [_ [_ Hw]]]]. simpl.
  assert (Hc' : consistent (eng w')).
  { rewrite Hw. apply run_all_consistent; assumption. }
  split; [exact Hc' | now apply consistent_counts].
Qed.
End ProtocolFacts.

Lemma process_request_effect_witness :
  eng (snd (process_request Tiny.bogus_request Tiny.after_add))
  = eng Tiny.after_add.
Proof.
  apply (proj2 (process_request_effect Tiny.bogus_request Tiny.after_add));
    simpl; discriminate.
Defined.

Lemma encoder_failure_contained_witness :
  fst (@process_request Q string string Broken.embedder Tiny.metric
         Tiny.add_request Tiny.after_add)
  = {| requestId := Some "test_req_7";
       result_field := Some (Error "Encoding failed");
       error_field := None |} /\
  fst (@process_request Q string string Broken.embedder Tiny.metric
         Broken.search_request Tiny.after_add)
  = {| requestId := Some "r2";
       result_field := Some (Hits []);
       error_field := None |}.
Proof.
  split.
  - exact (proj1 (proj1 (@encoder_failure_contained Q string string
                           Broken.embedder Tiny.metric
                           Tiny.add_request Tiny.after_add "Encoding failed")
                    eq_refl eq_refl)).
  - exact (proj1 (proj2 (@encoder_failure_contained Q string string
                           Broken.embedder Tiny.metric
                           Broken.search_request Tiny.after_add
                           "Encoding failed")
                    eq_refl eq_refl)).
Defined.

Lemma main_keeps_counts_witness :
  let lines := [Request Tiny.add_request; InvalidJson "Expecting value";
                Request Tiny.remove_request; Request Tiny.bogus_request;
                NotAnObject "no attribute get"; Request Tiny.add_request] in
  let w' := snd (main Tiny.blank lines) in
  ntotal (id_map (eng w')) = Dict.len (metadata (eng w')) /\
  get_stats w' = Stats 1 1 1.
Proof.
  intros lines w'.
  assert (Hc : consistent (eng (VectorEngine Tiny.blank)))
    by (split; [reflexivity | constructor]).
  assert (Hb : agreeable_run (map operation_of (requests lines))
                 (VectorEngine Tiny.blank)).
  { simpl. repeat split. left. reflexivity. }
  split; [|reflexivity].
  exact (proj2 (main_keeps_counts Tiny.blank lines Hc Hb)).
Defined.

(** ** Two invariants of every run *)

Section RunFacts.
Context {embedding document : Type}.
Context `{E : Embedder embedding} `{M : L2 embedding}.
Implicit Types (w : @world embedding document).

Lemma ascending_NoDup (l : list Z) : StronglySorted Z.lt l -> NoDup l.
Proof.
  induction 1 as [|a l Hs IH Hall]; constructor; [|exact IH].
  intros Hin. rewrite Forall_forall in Hall. apply Hall in Hin. lia.
Qed.

(** X19.  Whatever calls are made on a store whose ids ascend in
    insertion order below [next_id] (the empty store for one), and
    however they end, the ids of the index and the keys of the metadata
    mapping still ascend below [next_id]; so neither mapping ever holds
    an id twice, and no id at or above [next_id] is in use. *)
Theorem ids_stay_ordered :
  forall ops w,
    insertion_ordered (eng w) ->
    let w' := run_all ops w in
    insertion_ordered (eng w') /\
    NoDup (index_ids (eng w')) /\
    NoDup (Dict.keys (metadata (eng w'))) /\
    (forall id, next_id (eng w') <= id ->
                ~ In id (index_ids (eng w')) /\
                Dict.mem (metadata (eng w')) id = false).
Proof.
  intros ops w Hord w'.
  assert (Hw : insertion_ordered (eng w')) by now apply run_all_insertion_ordered.
  split; [exact Hw|].
  destruct Hw as [Hsi [Hsk [Hbi Hbk]]].
  split; [now apply ascending_NoDup|]. split; [now apply ascending_NoDup|].
  intros id Hid. rewrite Forall_forall in Hbi, Hbk. split.
  - intros Hin. apply Hbi in Hin. lia.
  - apply mem_false_keys. intros Hin. apply Hbk in Hin. lia.
Qed.
End RunFacts.

Lemma ids_stay_ordered_witness :
  let ops := [Add ["A"; "BB"; "CCC"] ["m0"; "m1"]; Remove [0];
              Add ["D"] ["m2"]] in
  insertion_ordered (eng Tiny.fresh) /\
  NoDup (Dict.keys (metadata (eng (run_all ops Tiny.fresh)))).
Proof.
  intros ops.
  assert (Hord : insertion_ordered (eng Tiny.fresh))
    by (repeat split; constructor).
  split; [exact Hord|].
  exact (proj1 (proj2 (proj2 (ids_stay_ordered ops Tiny.fresh Hord)))).
Defined.

Lemma failed_load_state_witness :
  let d := {| index_file := (Corrupt : artifact (@index Q));
              metadata_file := (Corrupt : artifact (@pickled string));
              index_writable := true; metadata_writable := true;
              index_truncated_on_failure := false;
              metadata_truncated_on_failure := false |} in
  loadable d = false /\ eng (VectorEngine d) = empty_engine.
Proof.
  intros d.
  assert (Hfail : loadable d = false) by reflexivity.
  split; [exact Hfail|].
  exact (proj1 (proj2 (proj2 (failed_load_state d) Hfail)
                  (or_intror eq_refl))).
Defined.
